(** * client/fns.go: bind-specification compiler and ssh-like stdin relay

    A shallow embedding of [SSHStdin], [parseBinds] and [joinFSTab] of
    package [client], together with the pieces of Go's [strings],
    [path/filepath] and [fmt] packages these functions call.

    Go strings are byte sequences: they are modelled by [string] (a list of
    [ascii], one per byte).  Byte slices read from and written to streams are
    [list ascii]. *)

From Stdlib Require Import Bool Arith ZArith Lia List Ascii String.
Import ListNotations.

Local Open Scope list_scope.
Local Open Scope string_scope.

(** ** Bytes used by the source *)

Definition LF : ascii := "010"%char.    (* '\n' *)
Definition CR : ascii := "013"%char.    (* '\r' *)
Definition Tilde : ascii := "~"%char.
Definition Dot : ascii := "."%char.
Definition Slash : ascii := "/"%char.   (* filepath.Separator on Unix *)
Definition Colon : ascii := ":"%char.
Definition Equal : ascii := "="%char.

(** The string holding the single byte ['\n']. *)
Definition NL : string := String LF "".

(** ** The stdin relay: method [SSHStdin] of [Cmd] *)

Module Relay.

Section Loop.

(** The writer [w]: [Write w p] is [Some w'] when [w.Write(p)] returns a nil
    error and leaves the writer as [w'], and [None] when it returns an
    error.  The reader [r] is the sequence of bytes its successive one-byte
    reads deliver before a read fails (end of stream included). *)
Variable W : Type.
Variable Write : W -> list ascii -> option W.

(** What one pass through the body of the [for] loop leaves behind: either
    the loop goes on, with the writer and the two flags, or the function has
    returned; [closed] tells whether [c.session.Close()] was called. *)
Inductive iter : Type :=
| Next (w : W) (newLine tilde : bool)
| Return (w : W) (closed : bool).

(** [var t = []byte{'~'}] *)
Definition t : list ascii := [Tilde].

(** The [switch b[0]] statement, for the byte [b] just read. *)
Definition body (w : W) (newLine tilde : bool) (b : ascii) : iter :=
  if (b =? LF)%char || (b =? CR)%char then
    (* case '\n', '\r' *)
    let newLine := true in
    match Write w [b] with
    | None => Return w false
    | Some w => Next w newLine tilde
    end
  else if (b =? Tilde)%char then
    (* case '~' *)
    if newLine then
      Next w false true
    else
      match Write w t with
      | None => Return w false
      | Some w => Next w newLine tilde
      end
  else if (b =? Dot)%char then
    (* case '.' *)
    if tilde then
      Return w true
    else
      match Write w [b] with
      | None => Return w false
      | Some w => Next w newLine tilde
      end
  else
    (* default *)
    let newLine := false in
    if tilde then
      match Write w t with
      | None => Return w false
      | Some w =>
          let tilde := false in
          match Write w [b] with
          | None => Return w false
          | Some w => Next w newLine tilde
          end
      end
    else
      match Write w [b] with
      | None => Return w false
      | Some w => Next w newLine tilde
      end.

(** The [for] loop: a failed read ([r] exhausted) breaks out of it. *)
Fixpoint loop (w : W) (newLine tilde : bool) (r : list ascii) : W * bool :=
  match r with
  | [] => (w, false)
  | b :: r =>
      match body w newLine tilde b with
      | Next w newLine tilde => loop w newLine tilde r
      | Return w closed => (w, closed)
      end
  end.

(** [var newLine, tilde bool]: both flags start out false.  The result is
    the writer as the relay leaves it, and whether the session was
    closed. *)
Definition SSHStdin (w : W) (r : list ascii) : W * bool :=
  loop w false false r.

(** The flags after the bytes of [r] have gone through the loop, when it is
    still running. *)
Fixpoint flags (w : W) (newLine tilde : bool) (r : list ascii)
  : option (W * bool * bool) :=
  match r with
  | [] => Some (w, newLine, tilde)
  | b :: r =>
      match body w newLine tilde b with
      | Next w newLine tilde => flags w newLine tilde r
      | Return _ _ => None
      end
  end.

End Loop.

(** A recording sink: every write succeeds and appends to what was written. *)
Definition record (w : list ascii) (p : list ascii) : option (list ascii) :=
  Some (w ++ p)%list.

(** A sink that is gone: every write returns an error. *)
Definition broken (w : unit) (p : list ascii) : option unit := None.

(** The relay run against a recording sink that starts empty: the bytes
    forwarded, and whether the session was closed. *)
Definition relay (r : list ascii) : list ascii * bool :=
  SSHStdin (list ascii) record [] r.

(** The four ways [switch b[0]] can go. *)
Inductive byte_class (b : ascii) : Prop :=
| IsLineTerminator : b = LF \/ b = CR -> byte_class b
| IsTilde : b = Tilde -> byte_class b
| IsDot : b = Dot -> byte_class b
| IsOther : b <> LF -> b <> CR -> b <> Tilde -> b <> Dot -> byte_class b.

End Relay.

(** ** Package [strings]

    The separators and cut sets this package passes are single bytes
    ([":"], ["="] and the newline), so they are taken as one [ascii]. *)

Module GoStrings.

Local Open Scope Z_scope.

(** [len(s)] *)
Definition len (s : string) : Z := Z.of_nat (String.length s).

(** [s[:k]] and [s[k:]] for [0 <= k <= len(s)]. *)
Fixpoint take (k : nat) (s : string) : string :=
  match k, s with
  | S k, String a s => String a (take k s)
  | _, _ => ""
  end.

Fixpoint drop (k : nat) (s : string) : string :=
  match k, s with
  | S k, String _ s => drop k s
  | _, _ => s
  end.

Definition slice_to (s : string) (k : Z) : string := take (Z.to_nat k) s.
Definition slice_from (s : string) (k : Z) : string := drop (Z.to_nat k) s.

(** [strings.IndexByte(s, c)]: the index of the first [c] in [s], or [-1]. *)
Fixpoint IndexByte (s : string) (c : ascii) : Z :=
  match s with
  | "" => -1
  | String a s =>
      if (a =? c)%char then 0
      else let m := IndexByte s c in if m <? 0 then -1 else m + 1
  end.

(** [strings.Count(s, sep)] for a one-byte [sep]. *)
Fixpoint Count (s : string) (c : ascii) : Z :=
  match s with
  | "" => 0
  | String a s => (if (a =? c)%char then 1 else 0) + Count s c
  end.

(** The loop of [genSplit], with [k] the iterations left ([n - i]): cut at the
    next separator, or stop when there is none. *)
Fixpoint genSplit_loop (sep : ascii) (sepSave : Z) (k : nat) (s : string)
  : list string :=
  match k with
  | O => [s]
  | S k =>
      let m := IndexByte s sep in
      if m <? 0 then [s]
      else slice_to s (m + sepSave)
             :: genSplit_loop sep sepSave k (slice_from s (m + 1))
  end.

(** [strings.genSplit(s, sep, sepSave, n)] for a one-byte [sep]. *)
Definition genSplit (s : string) (sep : ascii) (sepSave n : Z) : list string :=
  if n =? 0 then []
  else
    let n := if n <? 0 then Count s sep + 1 else n in
    let n := if n >? len s + 1 then len s + 1 else n in
    genSplit_loop sep sepSave (Z.to_nat (n - 1)) s.

(** [strings.Split(s, sep)] and [strings.SplitN(s, sep, n)]. *)
Definition Split (s : string) (sep : ascii) : list string :=
  genSplit s sep 0 (-1).

Definition SplitN (s : string) (sep : ascii) (n : Z) : list string :=
  genSplit s sep 0 n.

(** [strings.TrimRight(s, cutset)] for a one-byte cut set: every trailing
    [c] is removed. *)
Fixpoint TrimRight (s : string) (c : ascii) : string :=
  match s with
  | "" => ""
  | String a s =>
      match TrimRight s c with
      | "" => if (a =? c)%char then "" else String a ""
      | r => String a r
      end
  end.

(** [strings.Join(elems, sep)] *)
Fixpoint Join (elems : list string) (sep : string) : string :=
  match elems with
  | [] => ""
  | [a] => a
  | a :: elems => a ++ sep ++ Join elems sep
  end.

End GoStrings.

(** ** Package [path/filepath], on Unix *)

Module GoFilepath.

Import GoStrings.

(** [os.IsPathSeparator] *)
Definition IsPathSeparator (c : ascii) : bool := (c =? Slash)%char.

(** Is the path exhausted here, or the next byte a separator?
    ([r+1 == n || os.IsPathSeparator(path[r+1])]) *)
Definition ends_element (p : string) : bool :=
  match p with
  | "" => true
  | String c _ => IsPathSeparator c
  end.

(** The bytes of the path element [p] starts with, and what follows it. *)
Fixpoint element (p : string) : string * string :=
  match p with
  | "" => ("", "")
  | String c p' =>
      if IsPathSeparator c then ("", p)
      else let (e, rest) := element p' in (String c e, rest)
  end.

(** Backtracking over a [..]: from write index [w], step back while the index
    is above [dotdot] and the byte there is not a separator. *)
Fixpoint backtrack (out : string) (dotdot w : nat) : nat :=
  match w with
  | O => O
  | S w' =>
      if (dotdot <? w)%nat
         && negb (match String.get w out with
                  | Some c => IsPathSeparator c
                  | None => false
                  end)
      then backtrack out dotdot w'
      else w
  end.

(** The main loop of [Clean] over the unread part [p] of the path; [out] is
    the buffer written so far (its length is [out.w]).  Each pass reads at
    least one byte, so [fuel] above the length of [p] is never used up. *)
Fixpoint Clean_loop (fuel : nat) (rooted : bool) (p out : string)
  (dotdot : nat) : string :=
  match fuel with
  | O => out
  | S fuel =>
      match p with
      | "" => out
      | String c p1 =>
          if IsPathSeparator c then
            (* empty path element *)
            Clean_loop fuel rooted p1 out dotdot
          else if (c =? Dot)%char && ends_element p1 then
            (* . element *)
            Clean_loop fuel rooted p1 out dotdot
          else if (c =? Dot)%char
                  && match p1 with
                     | String c1 p2 => (c1 =? Dot)%char && ends_element p2
                     | "" => false
                     end
          then
            (* .. element: remove to last separator *)
            let p2 := drop 1 p1 in
            if (dotdot <? String.length out)%nat then
              let w := backtrack out dotdot (String.length out - 1) in
              Clean_loop fuel rooted p2 (take w out) dotdot
            else if negb rooted then
              let out := if (0 <? String.length out)%nat
                         then out ++ String Slash "" else out in
              let out := out ++ ".." in
              Clean_loop fuel rooted p2 out (String.length out)
            else
              Clean_loop fuel rooted p2 out dotdot
          else
            (* real path element: add slash if needed, copy element *)
            let out :=
              if (rooted && negb (String.length out =? 1)%nat)
                 || (negb rooted && negb (String.length out =? 0)%nat)
              then out ++ String Slash "" else out in
            let (e, rest) := element p in
            Clean_loop fuel rooted rest (out ++ e) dotdot
      end
  end.

(** [filepath.Clean(path)] *)
Definition Clean (path : string) : string :=
  match path with
  | "" => "."
  | String c _ =>
      let rooted := IsPathSeparator c in
      let out :=
        if rooted
        then Clean_loop (S (String.length path)) rooted (drop 1 path)
               (String Slash "") 1
        else Clean_loop (S (String.length path)) rooted path "" 0 in
      (* Turn empty string into "." *)
      if (String.length out =? 0)%nat then "." else out
  end.

(** [filepath.Join(elem...)]: the elements from the first non-empty one on,
    joined with the separator and cleaned. *)
Fixpoint Join (elem : list string) : string :=
  match elem with
  | [] => ""
  | e :: rest =>
      if (String.length e =? 0)%nat then Join rest
      else Clean (GoStrings.Join elem (String Slash ""))
  end.

End GoFilepath.

(** ** [parseBinds] and [joinFSTab] *)

Module Client.

Import GoStrings.

(** The errors [parseBinds] builds with [fmt.Errorf], one constructor per
    format string, with the element index and (where the message quotes it)
    the raw element.  All of them wrap [strconv.ErrSyntax]. *)
Inductive error : Type :=
| ErrZeroLength (i : nat)
    (* "bind: element %d is zero length:%w" *)
| ErrEmptyElements (i : nat) (bind : string)
    (* "bind: element %d(%q): empty elements are not supported:%w" *)
| ErrTooManyElements (i : nat) (bind : string)
    (* "bind: element %d(%q): too many elements around = sign:%w" *)
| ErrLocalZeroLength (i : nat) (bind : string)
    (* "bind: element %d(%q): local is 0 length:%w" *)
| ErrRemoteZeroLength (i : nat) (bind : string)
    (* "bind: element %d(%q): remote is 0 length:%w" *).

(** [fmt.Sprintf("%s %s none defaults,bind 0 0\n", device, target)] *)
Definition Sprintf_line (device target : string) : string :=
  device ++ " " ++ target ++ " none defaults,bind 0 0" ++ NL.

(** The line [parseBinds] appends for an accepted element. *)
Definition fstab_line (tmp local remote : string) : string :=
  Sprintf_line (GoFilepath.Join [tmp; "cpu"; remote]) local.

(** The [for i, bind := range binds] loop of [parseBinds], from index [i] on,
    with the [fstab] built so far.  The result is the pair the function
    returns: a string and an error ([None] for [nil]). *)
Fixpoint parseBinds_loop (tmp : string) (i : nat) (binds : list string)
  (fstab : string) : string * option error :=
  match binds with
  | [] => (fstab, None)
  | bind :: binds =>
      if (len bind =? 0)%Z then ("", Some (ErrZeroLength i))
      else
        let c := SplitN bind Equal 2 in
        let check (local remote : string) :=
          if (len local =? 0)%Z then
            (fstab, Some (ErrLocalZeroLength i bind))
          else if (len remote =? 0)%Z then
            (fstab, Some (ErrRemoteZeroLength i bind))
          else
            parseBinds_loop tmp (S i) binds
              (fstab ++ fstab_line tmp local remote) in
        match c with
        | [] => (fstab, Some (ErrEmptyElements i bind))
        | [c0] => check c0 c0
        | [c0; c1] => check c0 c1
        | _ => (fstab, Some (ErrTooManyElements i bind))
        end
  end.

Definition parseBinds (s tmp : string) : string * option error :=
  let fstab := "" in
  if (len s =? 0)%Z then (fstab, None)
  else parseBinds_loop tmp 0 (Split s Colon) fstab.

Definition joinFSTab (tables : list string) : string :=
  if (Z.of_nat (List.length tables) =? 0)%Z then ""
  else
    let tables :=
      map (fun t => if (len t =? 0)%Z then t else TrimRight t LF) tables in
    GoStrings.Join tables NL ++ NL.

End Client.

(** ** More of package [strings], and a structural reading of [Split] *)

Module GoStringsMore.

Import GoStrings.

(** [strings.HasPrefix(s, prefix)] *)
Fixpoint HasPrefix (s prefix : string) : bool :=
  match prefix, s with
  | "", _ => true
  | String p prefix, String a s => (a =? p)%char && HasPrefix s prefix
  | String _ _, "" => false
  end.

(** The pieces of [s] between the occurrences of [sep], read off the string
    byte by byte.  [Split_fields] shows that [Split] computes them. *)
Fixpoint fields (s : string) (sep : ascii) : list string :=
  match s with
  | "" => [""]
  | String a s =>
      if (a =? sep)%char then "" :: fields s sep
      else
        match fields s sep with
        | f :: fs => String a f :: fs
        | [] => [String a ""]
        end
  end.

End GoStringsMore.

(** ** Package [strconv]: [ParseUint] *)

Module GoStrconv.

Import GoStrings.

Local Open Scope Z_scope.

(** The [Err] field of the [*NumError] that [ParseUint] returns. *)
Inductive NumError : Type :=
| ErrSyntax
| ErrRange
| ErrBase (base : Z)
| ErrBitSize (bitSize : Z).

Definition byteZ (c : ascii) : Z := Z.of_N (N_of_ascii c).

(** [lower(c)]: [c | ('x' - 'X')] *)
Definition lower (c : Z) : Z := Z.lor c 32.

Definition maxUint64 : Z := 2 ^ 64 - 1.

(** [strconv.IntSize] on a 64-bit platform. *)
Definition IntSize : Z := 64.

(** [s[i]] as a number, [-1] past the end (only compared for equality with
    bytes below). *)
Definition at_ (s : string) (i : nat) : Z :=
  match String.get i s with
  | Some c => byteZ c
  | None => -1
  end.

(** The loop of [underscoreOK] from index [i] on, over the bytes [s] still to
    read; [saw] is the last kind of byte seen, as the byte the source keeps
    for it: ['^'] (94) beginning, ['0'] (48) digit, ['_'] (95) underscore,
    ['!'] (33) none of these. *)
Fixpoint underscoreOK_loop (hex : bool) (s : string) (saw : Z) : bool :=
  match s with
  | "" => negb (saw =? 95)
  | String c s =>
      let c := byteZ c in
      if ((48 <=? c) && (c <=? 57))
         || (hex && (97 <=? lower c) && (lower c <=? 102))
      then underscoreOK_loop hex s 48
      else if c =? 95 then
        if negb (saw =? 48) then false else underscoreOK_loop hex s 95
      else if saw =? 95 then false
      else underscoreOK_loop hex s 33
  end.

(** [strconv.underscoreOK(s)] *)
Definition underscoreOK (s : string) : bool :=
  (* Optional sign. *)
  let s := if (1 <=? len s) && ((at_ s 0 =? 45) || (at_ s 0 =? 43))
           then slice_from s 1 else s in
  (* Optional base prefix. *)
  if (2 <=? len s) && (at_ s 0 =? 48)
     && ((lower (at_ s 1) =? 98) || (lower (at_ s 1) =? 111)
         || (lower (at_ s 1) =? 120))
  then underscoreOK_loop (lower (at_ s 1) =? 120) (slice_from s 2) 48
  else underscoreOK_loop false s 94.

(** The [for _, c := range []byte(s)] loop of [ParseUint]: the value and the
    [underscores] flag at the end, or the value and error returned from
    inside the loop.  [n] is a [uint64]: its arithmetic wraps at [2^64]. *)
Fixpoint ParseUint_loop (base0 : bool) (base cutoff maxVal : Z) (s : string)
  (n : Z) (underscores : bool) : (Z * bool) + (Z * NumError) :=
  match s with
  | "" => inl (n, underscores)
  | String c s =>
      let c := byteZ c in
      if (c =? 95) && base0 then
        ParseUint_loop base0 base cutoff maxVal s n true
      else
        let digit :=
          if (48 <=? c) && (c <=? 57) then Some (c - 48)
          else if (97 <=? lower c) && (lower c <=? 122)
               then Some (lower c - 97 + 10)
               else None in
        match digit with
        | None => inr (0, ErrSyntax)
        | Some d =>
            if d >=? base then inr (0, ErrSyntax)
            else if n >=? cutoff then
              (* n*base overflows *)
              inr (maxVal, ErrRange)
            else
              let n := (n * base) mod 2 ^ 64 in
              let n1 := (n + d) mod 2 ^ 64 in
              if (n1 <? n) || (n1 >? maxVal) then
                (* n+d overflows *)
                inr (maxVal, ErrRange)
              else ParseUint_loop base0 base cutoff maxVal s n1 underscores
        end
  end.

(** [strconv.ParseUint(s, base, bitSize)]: the value, and the error if any. *)
Definition ParseUint (s : string) (base bitSize : Z) : Z * option NumError :=
  if len s =? 0 then (0, Some ErrSyntax)
  else
    let base0 := base =? 0 in
    let s0 := s in
    let prefixed :=
      if (2 <=? base) && (base <=? 36) then Some (base, s)
      else if base =? 0 then
        (* Look for octal, hex prefix. *)
        if at_ s 0 =? 48 then
          if (3 <=? len s) && (lower (at_ s 1) =? 98)
          then Some (2, slice_from s 2)
          else if (3 <=? len s) && (lower (at_ s 1) =? 111)
          then Some (8, slice_from s 2)
          else if (3 <=? len s) && (lower (at_ s 1) =? 120)
          then Some (16, slice_from s 2)
          else Some (8, slice_from s 1)
        else Some (10, s)
      else None in
    match prefixed with
    | None => (0, Some (ErrBase base))
    | Some (base', s) =>
        if (bitSize <? 0) || (bitSize >? 64) then (0, Some (ErrBitSize bitSize))
        else
          let bitSize := if bitSize =? 0 then IntSize else bitSize in
          (* Cutoff is the smallest number such that cutoff*base > maxUint64. *)
          let cutoff := maxUint64 / base' + 1 in
          let maxVal := 2 ^ bitSize - 1 in
          match ParseUint_loop base0 base' cutoff maxVal s 0 false with
          | inr (v, e) => (v, Some e)
          | inl (n, underscores) =>
              if underscores && negb (underscoreOK s0) then (0, Some ErrSyntax)
              else (n, None)
          end
    end.

End GoStrconv.

(** ** Numbers written in decimal digits *)

Module Decimal.

Import GoStrconv.

Local Open Scope Z_scope.

(** Is the byte one of ['0'] to ['9']? *)
Definition is_digit (c : ascii) : bool := (48 <=? byteZ c) && (byteZ c <=? 57).

Fixpoint all_digits (s : string) : bool :=
  match s with
  | "" => true
  | String c s => is_digit c && all_digits s
  end.

(** The number the digits of [s] write after the digits that gave [n]. *)
Fixpoint value_from (n : Z) (s : string) : Z :=
  match s with
  | "" => n
  | String c s => value_from (10 * n + (byteZ c - 48)) s
  end.

Definition value (s : string) : Z := value_from 0 s.

(** Does the string start with the byte ['0']? *)
Definition leading_zero (s : string) : bool :=
  match s with
  | String c _ => byteZ c =? 48
  | "" => false
  end.

End Decimal.

(** ** The rest of [fns.go] *)

Module ClientMore.

Import GoStrings GoStringsMore GoStrconv Client.

(** [DefaultPort] *)
Definition DefaultPort : string := "17010".

(** *** [generateNonce] and [nonce.String] *)

(** The hexadecimal digit of a value below 16, in lower case. *)
Definition hexdigit (n : N) : ascii :=
  match String.get (N.to_nat n) "0123456789abcdef" with
  | Some c => c
  | None => "0"%char
  end.

(** [fmt.Sprintf("%02x", b)] for a byte array [b]: two digits per byte. *)
Fixpoint Sprintf_02x (b : list ascii) : string :=
  match b with
  | [] => ""
  | c :: b =>
      String (hexdigit (N_of_ascii c / 16))
        (String (hexdigit (N_of_ascii c mod 16)) (Sprintf_02x b))
  end.

(** [copy(dst, src)] into an array of [n] bytes that holds zeros: the first
    [n] bytes of [src], and zeros after them if [src] is shorter. *)
Fixpoint copy_into_zeroed (n : nat) (src : string) : list ascii :=
  match n with
  | O => []
  | S n =>
      match src with
      | "" => zero :: copy_into_zeroed n ""
      | String c src => c :: copy_into_zeroed n src
      end
  end.

(** The zero value [nonce{}]. *)
Definition zero_nonce : list ascii := copy_into_zeroed 32 "".

(** [generateNonce], for what [rand.Read(b[:])] did to the 16-byte array
    [b]: [inl] the bytes it filled [b] with, or [inr] its error. *)
Definition generateNonce {E : Type} (read : list ascii + E)
  : list ascii * option E :=
  match read with
  | inr err => (zero_nonce, Some err)
  | inl b => (copy_into_zeroed 32 (Sprintf_02x b), None)
  end.

(** [nonce.String]: [string(n[:])] *)
Definition nonce_String (n : list ascii) : string := string_of_list_ascii n.

(** The value of a hexadecimal digit in lower case, and the byte two digits
    stand for. *)
Definition hexvalue (c : ascii) : N :=
  let v := N_of_ascii c in
  if (N.leb 48 v && N.leb v 57)%bool then (v - 48)%N else (v - 97 + 10)%N.

Fixpoint unhex (s : list ascii) : list ascii :=
  match s with
  | hi :: lo :: s =>
      ascii_of_N (16 * hexvalue hi + hexvalue lo) :: unhex s
  | _ => []
  end.

(** *** [SetEnv] *)

(** What indexing a slice out of range does. *)
Inductive outcome (A : Type) : Type :=
| Done (a : A)
| Panic.
Arguments Done {A} a.
Arguments Panic {A}.

Section Session.

(** The ssh session: [Setenv s name value] is [inl s'] when
    [c.session.Setenv(name, value)] returns nil and leaves the session as
    [s'], and [inr err] when it returns [err]. *)
Variable Session : Type.
Variable SessionError : Type.
Variable Setenv : Session -> string -> string -> Session + SessionError.

(** [env := strings.SplitN(v, "=", 2); if len(env) == 1 { env = append(env, "") }] *)
Definition env_fields (v : string) : list string :=
  let env := SplitN v Equal 2 in
  if (Z.of_nat (List.length env) =? 1)%Z then (env ++ [""])%list else env.

(** The [for _, v := range ...] loop of [SetEnv].  The result is the session
    and the error returned: the variable [v] that could not be set, with the
    session's error. *)
Fixpoint SetEnv_loop (s : Session) (vs : list string)
  : outcome (Session * option (string * SessionError)) :=
  match vs with
  | [] => Done (s, None)
  | v :: vs =>
      let env := env_fields v in
      match nth_error env 0, nth_error env 1 with
      | Some env0, Some env1 =>
          match Setenv s env0 env1 with
          | inr err => Done (s, Some (v, err))
          | inl s => SetEnv_loop s vs
          end
      | _, _ => Panic
      end
  end.

(** [SetEnv(envs...)], with [environ] what [os.Environ()] returns. *)
Definition SetEnv (s : Session) (environ envs : list string)
  : outcome (Session * option (string * SessionError)) :=
  SetEnv_loop s (environ ++ envs)%list.

End Session.

(** A session that accepts every variable and records the calls in order. *)
Definition recording_Setenv (s : list (string * string)) (name value : string)
  : list (string * string) + unit :=
  inl (s ++ [(name, value)])%list.

(** *** [GetKeyFile], [GetHostName], [GetPort] *)

Section Config.

(** [config.Get(host, key)] of the ssh configuration, the value of
    [os.Getenv("HOME")], and the value of the package variable
    [DefaultKeyFile] at the time of the call. *)
Variable config_Get : string -> string -> string.
Variable HOME : string.
Variable DefaultKeyFile : string.

(** The name [GetKeyFile] and [UserKeyConfig] start from: the one given,
    else the one configured for the host, else the default. *)
Definition chosen_key_file (host kf : string) : string :=
  if (len kf =? 0)%Z then
    let kf := config_Get host "IdentityFile" in
    if (len kf =? 0)%Z then DefaultKeyFile else kf
  else kf.

Definition GetKeyFile (host kf : string) : string :=
  let kf :=
    if (len kf =? 0)%Z then
      let kf := config_Get host "IdentityFile" in
      if (len kf =? 0)%Z then DefaultKeyFile else kf
    else kf in
  let kf :=
    if HasPrefix kf "~" then GoFilepath.Join [HOME; slice_from kf 1] else kf in
  kf.

Definition GetHostName (host : string) : string :=
  let h := config_Get host "HostName" in
  if negb (len h =? 0)%Z then h else host.

Definition GetPort (host port : string) : string * option unit :=
  let p := port in
  let p :=
    if (len port =? 0)%Z then
      let cp := config_Get host "Port" in
      if negb (len cp =? 0)%Z then cp else p
    else p in
  let p := if (len p =? 0)%Z || (p =? "22")%string then DefaultPort else p in
  (p, None).

(** *** [UserKeyConfig] *)

(** Reading a file and parsing a private key: [inl] the result, or [inr] the
    error.  [PublicKeys] makes the auth method of a signer. *)
Variable FileError KeyError Signer AuthMethod : Type.
Variable ReadFile : string -> string + FileError.
Variable ParsePrivateKey : string -> Signer + KeyError.
Variable PublicKeys : Signer -> AuthMethod.

(** The errors of [UserKeyConfig], with the key file name they quote. *)
Inductive key_error : Type :=
| ErrReadKey (kf : string) (err : FileError)
    (* "unable to read private key %q: %v" *)
| ErrParseKey (kf : string) (err : KeyError)
    (* "ParsePrivateKey %q: %v" *).

(** The name of the key file [UserKeyConfig] reads, for the fields
    [c.PrivateKeyFile] and [c.Host]. *)
Definition UserKeyConfig_file (PrivateKeyFile Host : string) : string :=
  let kf := PrivateKeyFile in
  let kf :=
    if (len kf =? 0)%Z then
      let kf := config_Get Host "IdentityFile" in
      if (len kf =? 0)%Z then DefaultKeyFile else kf
    else kf in
  (* The kf will always be non-zero at this point. *)
  if HasPrefix kf "~/" then GoFilepath.Join [HOME; slice_from kf 1] else kf.

(** [UserKeyConfig]: the list [c.config.Auth] it leaves, and the error. *)
Definition UserKeyConfig (PrivateKeyFile Host : string)
  (Auth : list AuthMethod) : list AuthMethod * option key_error :=
  let kf := UserKeyConfig_file PrivateKeyFile Host in
  match ReadFile kf with
  | inr err => (Auth, Some (ErrReadKey kf err))
  | inl key =>
      match ParsePrivateKey key with
      | inr err => (Auth, Some (ErrParseKey kf err))
      | inl signer => ((Auth ++ [PublicKeys signer])%list, None)
      end
  end.

End Config.

(** The value [DefaultKeyFile] is initialised with. *)
Definition DefaultKeyFile_init (HOME : string) : string :=
  GoFilepath.Join [HOME; ".ssh/cpu_rsa"].

(** *** [vsockIdPort] *)

(** [uint32(x)] *)
Definition uint32 (x : Z) : Z := (x mod 2 ^ 32)%Z.

Definition vsockIdPort (host port : string) : Z * Z * option NumError :=
  match ParseUint host 0 32 with
  | (_, Some err) => (0, 0, Some err)%Z
  | (h, None) =>
      match ParseUint port 0 32 with
      | (_, Some err) => (0, 0, Some err)%Z
      | (p, None) => (uint32 h, uint32 p, None)
      end
  end.

(** *** Reading [parseBinds] element by element *)

(** The local and remote halves of an element, as the [switch len(c)]
    statement assigns them. *)
Definition halves (bind : string) : string * string :=
  match SplitN bind Equal 2 with
  | [c0] => (c0, c0)
  | [c0; c1] => (c0, c1)
  | _ => ("", "")
  end.

(** The three checks an element has to pass. *)
Definition accepted (bind : string) : bool :=
  negb (len bind =? 0)%Z
  && negb (len (fst (halves bind)) =? 0)%Z
  && negb (len (snd (halves bind)) =? 0)%Z.

(** The line of an accepted element. *)
Definition line_of (tmp bind : string) : string :=
  fstab_line tmp (fst (halves bind)) (snd (halves bind)).

End ClientMore.

(** * Properties of the relay *)

Section RelayFacts.

Import Relay.

Local Open Scope list_scope.

Local Abbreviation body := (Relay.body (list ascii) record).
Local Abbreviation loop := (Relay.loop (list ascii) record).
Local Abbreviation flags := (Relay.flags (list ascii) record).

Lemma classify (b : ascii) : byte_class b.
Proof.
  destruct (Ascii.eqb_spec b LF) as [-> | HLF];
    [ apply IsLineTerminator; now left | ].
  destruct (Ascii.eqb_spec b CR) as [-> | HCR];
    [ apply IsLineTerminator; now right | ].
  destruct (Ascii.eqb_spec b Tilde) as [-> | HT]; [ now apply IsTilde | ].
  destruct (Ascii.eqb_spec b Dot) as [-> | HD]; [ now apply IsDot | ].
  now apply IsOther.
Qed.

Lemma eqb_neq (a b : ascii) : a <> b -> (a =? b)%char = false.
Proof. intros H. now apply Ascii.eqb_neq. Qed.

(** The body of the loop on a recording sink, case by case. *)

Lemma body_line_terminator w newLine tilde b :
  b = LF \/ b = CR -> body w newLine tilde b = Next _ (w ++ [b]) true tilde.
Proof. intros [-> | ->]; reflexivity. Qed.

Lemma body_tilde w newLine tilde :
  body w newLine tilde Tilde =
    if newLine then Next _ w false true
    else Next _ (w ++ [Tilde]) false tilde.
Proof. destruct newLine; reflexivity. Qed.

Lemma body_dot w newLine tilde :
  body w newLine tilde Dot =
    if tilde then Return _ w true else Next _ (w ++ [Dot]) newLine false.
Proof. destruct tilde; reflexivity. Qed.

Lemma body_other w newLine tilde b :
  b <> LF -> b <> CR -> b <> Tilde -> b <> Dot ->
  body w newLine tilde b =
    Next _ (if tilde then w ++ [Tilde; b] else w ++ [b]) false false.
Proof.
  intros H1 H2 H3 H4. unfold Relay.body.
  rewrite (eqb_neq _ _ H1), (eqb_neq _ _ H2), (eqb_neq _ _ H3),
    (eqb_neq _ _ H4).
  destruct tilde; cbn; [ now rewrite <- app_assoc | reflexivity ].
Qed.

(** The relay never closes the session unless a ['~'] was withheld: with the
    [tilde] flag clear and no ['~'] in the input, every byte is forwarded. *)
Lemma loop_without_tilde r : forall w newLine,
  ~ In Tilde r -> loop w newLine false r = (w ++ r, false).
Proof.
  induction r as [| b r IH]; intros w newLine Hin; cbn [Relay.loop].
  - now rewrite app_nil_r.
  - assert (Hb : b <> Tilde) by (intros ->; apply Hin; now left).
    assert (Hr : ~ In Tilde r) by (intros H; apply Hin; now right).
    destruct (classify b) as [Hlt | Ht | -> | H1 H2 H3 H4].
    + rewrite (body_line_terminator _ _ _ _ Hlt), IH by assumption.
      now rewrite <- app_assoc.
    + contradiction.
    + rewrite body_dot, IH by assumption. now rewrite <- app_assoc.
    + rewrite body_other, IH by assumption. now rewrite <- app_assoc.
Qed.

(** Input with no ['~'] is forwarded byte for byte and the session is left
    open. *)
Lemma relay_without_tilde r : ~ In Tilde r -> relay r = (r, false).
Proof. intros H. unfold relay, SSHStdin. now rewrite loop_without_tilde. Qed.

(** The loop over a concatenated input runs the first part and, if it is
    still going, the second part from the flags the first one left. *)
Lemma loop_app r1 : forall r2 w newLine tilde,
  loop w newLine tilde (r1 ++ r2) =
    match flags w newLine tilde r1 with
    | Some (w', newLine', tilde') => loop w' newLine' tilde' r2
    | None => loop w newLine tilde r1
    end.
Proof.
  induction r1 as [| b r1 IH]; intros r2 w newLine tilde; cbn.
  - reflexivity.
  - destruct (body w newLine tilde b); [ apply IH | reflexivity ].
Qed.

(** The bytes already written are never taken back. *)
Lemma loop_extends r : forall w newLine tilde,
  exists p, fst (loop w newLine tilde r) = w ++ p.
Proof.
  induction r as [| b r IH]; intros w newLine tilde; cbn [Relay.loop].
  - exists []. now rewrite app_nil_r.
  - destruct (classify b) as [Hlt | -> | -> | H1 H2 H3 H4].
    + rewrite (body_line_terminator _ _ _ _ Hlt).
      destruct (IH (w ++ [b]) true tilde) as [p ->].
      exists (b :: p). now rewrite <- app_assoc.
    + rewrite body_tilde. destruct newLine.
      * apply IH.
      * destruct (IH (w ++ [Tilde]) false tilde) as [p ->].
        exists (Tilde :: p). now rewrite <- app_assoc.
    + rewrite body_dot. destruct tilde.
      * exists []. now rewrite app_nil_r.
      * destruct (IH (w ++ [Dot]) newLine false) as [p ->].
        exists (Dot :: p). now rewrite <- app_assoc.
    + rewrite body_other by assumption. destruct tilde.
      * destruct (IH (w ++ [Tilde; b]) false false) as [p ->].
        exists (Tilde :: b :: p). now rewrite <- app_assoc.
      * destruct (IH (w ++ [b]) false false) as [p ->].
        exists (b :: p). now rewrite <- app_assoc.
Qed.

(** When every write fails, the relay returns without closing the session
    unless the kill sequence comes before any byte that must be written. *)
Lemma loop_broken_sink r : forall newLine tilde,
  Relay.loop unit broken tt newLine tilde r = (tt, false)
  \/ Relay.loop unit broken tt newLine tilde r = (tt, true).
Proof.
  induction r as [| b r IH]; intros newLine tilde; cbn [Relay.loop].
  - now left.
  - unfold Relay.body, broken.
    destruct (_ || _); [ now left | ].
    destruct (b =? Tilde)%char.
    { destruct newLine; [ apply IH | now left ]. }
    destruct (b =? Dot)%char.
    { destruct tilde; [ now right | now left ]. }
    destruct tilde; now left.
Qed.

(** ** The state at the start of a relay *)

(** C1, as stated, fails: a relay that starts with ['~'] ['.'] forwards both
    bytes and leaves the session open. *)
Lemma SSHStdin_initial_tilde_dot_is_data :
  relay [Tilde; Dot] = ([Tilde; Dot], false)
  /\ relay [Tilde; Dot] <> ([], true).
Proof. split; [ reflexivity | discriminate ]. Qed.

(** C1, amended: a relay starts with both flags clear (ordinary relay mode,
    not the after-line-break state), so when the first two bytes of the input
    are ['~'] and ['.'] both are forwarded as data and the relay goes on, in
    ordinary mode, with the rest of the input; it is from the after-line-break
    state that ['~'] ['.'] closes the session and forwards nothing. *)
Theorem SSHStdin_starts_in_ordinary_mode :
  (forall w r, SSHStdin _ record w r = loop w false false r)
  /\ (forall w rest,
        SSHStdin _ record w (Tilde :: Dot :: rest)
        = loop (w ++ [Tilde; Dot]) false false rest)
  /\ (forall w tilde rest,
        loop w true tilde (Tilde :: Dot :: rest) = (w, true)).
Proof.
  repeat split.
  - intros w rest. unfold SSHStdin. cbn. unfold record.
    now rewrite <- app_assoc.
Qed.

(** ** A withheld ['~'] followed by a byte other than ['.'] *)

(** C4: evaluation at the inputs where the code departs from the claim.  A
    line terminator read while a ['~'] is withheld is forwarded without the
    ['~'] and leaves it withheld; a second line-start ['~'] then replaces
    the first, which is never forwarded; a ['~'] read right after the
    withheld one is forwarded alone and the flag stays set. *)
Theorem SSHStdin_withheld_tilde_not_flushed :
  relay [LF; Tilde; LF] = ([LF; LF], false)
  /\ flags [] false false [LF; Tilde; LF] = Some ([LF; LF], true, true)
  /\ relay [LF; Tilde; LF; Tilde; "x"%char] = ([LF; LF; Tilde; "x"%char], false)
  /\ relay [LF; Tilde; Tilde] = ([LF; Tilde], false)
  /\ flags [] false false [LF; Tilde; Tilde] = Some ([LF; Tilde], false, true).
Proof. repeat split. Qed.

(** What the code does do for bytes of the [default] case: the withheld
    ['~'] goes out before the byte and both flags are cleared. *)
Lemma SSHStdin_withheld_tilde_flushed_by_other w b rest :
  b <> LF -> b <> CR -> b <> Tilde -> b <> Dot ->
  loop w false true (b :: rest) = loop (w ++ [Tilde; b]) false false rest.
Proof.
  intros H1 H2 H3 H4. cbn [Relay.loop]. now rewrite body_other.
Qed.

(** ** When a ['~'] is withheld *)

(** C5: evaluation at the input where the code departs from the claim.  The
    ['.'] case does not clear [newLine], so a ['~'] that follows a line
    terminator and a ['.'] is withheld, and the next ['.'] closes the
    session.  The example of the claim, ["a~.b"], is forwarded unchanged. *)
Theorem SSHStdin_tilde_withheld_after_dot :
  relay [LF; Dot; Tilde; Dot] = ([LF; Dot], true)
  /\ flags [] false false [LF; Dot] = Some ([LF; Dot], true, false)
  /\ flags [] false false [LF; Dot; Tilde] = Some ([LF; Dot], false, true)
  /\ relay ["a"%char; Tilde; Dot; "b"%char]
     = (["a"%char; Tilde; Dot; "b"%char], false).
Proof. repeat split. Qed.

(** A ['~'] is withheld exactly when the [newLine] flag is set; the flag is
    set by a line terminator, kept by ['.'], and cleared by every other
    byte. *)
Lemma SSHStdin_tilde_withheld_iff_newLine w newLine tilde :
  (newLine = true -> body w newLine tilde Tilde = Next _ w false true)
  /\ (newLine = false ->
      body w newLine tilde Tilde = Next _ (w ++ [Tilde]) false tilde).
Proof. split; intros ->; reflexivity. Qed.

(** Every byte but a line terminator and ['.'] leaves [newLine] clear, so a
    ['~'] that follows such a byte is forwarded at once. *)
Lemma SSHStdin_newLine_cleared_unless_dot w newLine tilde b rest :
  b <> LF -> b <> CR -> b <> Dot ->
  exists w' tilde',
    body w newLine tilde b = Next _ w' false tilde'
    /\ loop w newLine tilde (b :: Tilde :: rest)
       = loop (w' ++ [Tilde]) false tilde' rest.
Proof.
  intros H1 H2 H4.
  destruct (Ascii.eqb_spec b Tilde) as [-> | H3].
  - cbn [Relay.loop]. rewrite body_tilde. destruct newLine; eauto.
  - cbn [Relay.loop]. rewrite (body_other _ _ _ _ H1 H2 H3 H4). eauto.
Qed.

(** ** Line terminators while a ['~'] is withheld *)

(** C10: a line terminator read while a ['~'] is withheld is forwarded and
    leaves the [tilde] flag set, so on input ["\n~\n."] the relay forwards
    the two line terminators and closes the session at the ['.']. *)
Theorem SSHStdin_line_terminator_keeps_tilde_flag :
  (forall w newLine,
      body w newLine true LF = Next _ (w ++ [LF]) true true)
  /\ (forall w newLine,
        body w newLine true CR = Next _ (w ++ [CR]) true true)
  /\ relay [LF; Tilde; LF; Dot] = ([LF; LF], true).
Proof. repeat split. Qed.

End RelayFacts.

(** * Properties of the [strings] functions *)

Section StringFacts.

Import GoStrings.

Local Open Scope Z_scope.

Lemma append_empty_r s : s ++ "" = s.
Proof. induction s as [| a s IH]; cbn; [ reflexivity | now rewrite IH ]. Qed.

Lemma append_assoc s1 s2 s3 : (s1 ++ s2) ++ s3 = s1 ++ (s2 ++ s3).
Proof. induction s1 as [| a s1 IH]; cbn; [ reflexivity | now rewrite IH ]. Qed.

Lemma length_append s1 s2 :
  String.length (s1 ++ s2) = (String.length s1 + String.length s2)%nat.
Proof. induction s1 as [| a s1 IH]; cbn; [ reflexivity | now rewrite IH ]. Qed.

Lemma append_eq_empty s1 s2 : s1 ++ s2 = "" -> s1 = "" /\ s2 = "".
Proof. destruct s1; cbn; [ now split | discriminate ]. Qed.

Lemma len_nonneg s : 0 <= len s.
Proof. unfold len. lia. Qed.

Lemma len_zero s : (len s =? 0) = true <-> s = "".
Proof.
  unfold len. destruct s; cbn; split; try reflexivity; try discriminate.
Qed.

Lemma len_nonzero s : s <> "" -> (len s =? 0) = false.
Proof.
  intros H. destruct (len s =? 0) eqn:E; [ | reflexivity ].
  now apply len_zero in E.
Qed.

Lemma len_String a s : len (String a s) = len s + 1.
Proof. unfold len. cbn [String.length]. lia. Qed.

Lemma len_append s1 s2 : len (s1 ++ s2) = len s1 + len s2.
Proof. unfold len. rewrite length_append. lia. Qed.

Lemma Count_nonneg s c : 0 <= Count s c.
Proof.
  induction s as [| a s IH]; cbn; [ lia | destruct (a =? c)%char; lia ].
Qed.

Lemma Count_append s1 s2 c : Count (s1 ++ s2) c = Count s1 c + Count s2 c.
Proof.
  induction s1 as [| a s1 IH]; cbn [append Count]; [ lia | rewrite IH; lia ].
Qed.

(** [IndexByte] is [-1] or a valid index. *)
Lemma IndexByte_range s c :
  IndexByte s c = -1 \/ 0 <= IndexByte s c < len s.
Proof.
  induction s as [| a s IH]; cbn [IndexByte]; [ now left | ].
  rewrite len_String. pose proof (len_nonneg s).
  destruct (a =? c)%char; [ right; lia | ].
  destruct (IndexByte s c <? 0) eqn:E; [ now left | right ].
  apply Z.ltb_ge in E. lia.
Qed.

(** A byte that does not occur is not found. *)
Lemma IndexByte_absent s c : Count s c = 0 -> IndexByte s c = -1.
Proof.
  induction s as [| a s IH]; cbn [IndexByte Count]; [ reflexivity | ].
  pose proof (Count_nonneg s c).
  destruct (a =? c)%char; [ lia | ].
  intros H0. rewrite IH by lia. reflexivity.
Qed.

(** A byte that occurs is found. *)
Lemma IndexByte_present s c : 0 < Count s c -> 0 <= IndexByte s c.
Proof.
  induction s as [| a s IH]; cbn [IndexByte Count]; [ lia | ].
  destruct (a =? c)%char; [ lia | ].
  intros H0. assert (H' : 0 <= IndexByte s c) by (apply IH; lia).
  destruct (IndexByte s c <? 0) eqn:E; [ apply Z.ltb_lt in E; lia | lia ].
Qed.

(** [IndexByte] finds the first occurrence: the string is cut into a part
    without the byte, the byte, and the rest. *)
Lemma IndexByte_first s c :
  0 <= IndexByte s c ->
  s = slice_to s (IndexByte s c)
        ++ String c (slice_from s (IndexByte s c + 1))
  /\ Count (slice_to s (IndexByte s c)) c = 0.
Proof.
  unfold slice_to, slice_from.
  induction s as [| a s IH]; cbn [IndexByte]; [ lia | ].
  destruct (Ascii.eqb_spec a c) as [-> | Hne].
  - intros _. cbn. now split.
  - destruct (IndexByte s c <? 0) eqn:E; [ lia | ].
    apply Z.ltb_ge in E. intros _.
    destruct (IH E) as [Hs Hc].
    replace (Z.to_nat (IndexByte s c + 1))
      with (S (Z.to_nat (IndexByte s c))) in * by lia.
    replace (Z.to_nat (IndexByte s c + 1 + 1))
      with (S (S (Z.to_nat (IndexByte s c)))) by lia.
    cbn [take drop append Count]. split.
    + f_equal. exact Hs.
    + apply Ascii.eqb_neq in Hne. rewrite Hne. lia.
Qed.

(** The index of a byte that follows a part without it. *)
Lemma IndexByte_append l c r :
  Count l c = 0 -> IndexByte (l ++ String c r) c = len l.
Proof.
  induction l as [| a l IH]; cbn [append IndexByte Count].
  - intros _. now rewrite Ascii.eqb_refl.
  - pose proof (Count_nonneg l c). rewrite len_String.
    destruct (a =? c)%char; [ lia | ].
    intros H0. rewrite IH by lia.
    pose proof (len_nonneg l).
    destruct (len l <? 0) eqn:E; [ apply Z.ltb_lt in E; lia | reflexivity ].
Qed.

Lemma take_append l r : take (String.length l) (l ++ r) = l.
Proof.
  induction l as [| a l IH]; cbn; [ now destruct r | now rewrite IH ].
Qed.

Lemma drop_append l r : drop (String.length l) (l ++ r) = r.
Proof. induction l as [| a l IH]; cbn; [ reflexivity | exact IH ]. Qed.

(** The loop of [genSplit] returns between one and [k + 1] pieces. *)
Lemma genSplit_loop_length sep sepSave k : forall s,
  (1 <= List.length (genSplit_loop sep sepSave k s) <= S k)%nat.
Proof.
  induction k as [| k IH]; intros s; cbn [genSplit_loop].
  - cbn. lia.
  - destruct (IndexByte s sep <? 0); cbn [List.length]; [ lia | ].
    specialize (IH (slice_from s (IndexByte s sep + 1))). lia.
Qed.

(** [SplitN] with a positive [n] returns between one and [n] pieces. *)
Lemma SplitN_length s sep n :
  0 < n -> (1 <= List.length (SplitN s sep n) <= Z.to_nat n)%nat.
Proof.
  intros Hn. unfold SplitN, genSplit.
  destruct (n =? 0) eqn:E0; [ apply Z.eqb_eq in E0; lia | ].
  destruct (n <? 0) eqn:E1; [ apply Z.ltb_lt in E1; lia | ].
  pose proof (len_nonneg s).
  match goal with
  | |- context [genSplit_loop sep 0 ?k s] =>
      pose proof (genSplit_loop_length sep 0 k s) as Hl;
      assert (S k <= Z.to_nat n)%nat
  end.
  { destruct (n >? len s + 1) eqn:E2; [ | lia ].
    apply Z.gtb_lt in E2. lia. }
  lia.
Qed.

(** A string without the separator is a single piece. *)
Lemma Split_without_sep s sep : Count s sep = 0 -> Split s sep = [s].
Proof.
  intros H. unfold Split, genSplit. cbn [Z.eqb Z.ltb Z.compare].
  rewrite H. pose proof (len_nonneg s).
  destruct (0 + 1 >? len s + 1) eqn:E.
  - apply Z.gtb_lt in E. lia.
  - reflexivity.
Qed.

(** [SplitN(s, sep, 2)] cuts at the first separator only. *)
Lemma SplitN_2_first s sep :
  0 < Count s sep ->
  SplitN s sep 2
  = [slice_to s (IndexByte s sep); slice_from s (IndexByte s sep + 1)].
Proof.
  intros H. unfold SplitN, genSplit. cbn [Z.eqb Z.ltb Z.compare].
  pose proof (IndexByte_present s sep H) as Hm.
  destruct (IndexByte_range s sep) as [E | E]; [ lia | ].
  destruct (2 >? len s + 1) eqn:E2; [ apply Z.gtb_lt in E2; lia | ].
  change (Z.to_nat (2 - 1)) with 1%nat. cbn [genSplit_loop].
  destruct (IndexByte s sep <? 0) eqn:E3; [ apply Z.ltb_lt in E3; lia | ].
  now rewrite Z.add_0_r.
Qed.

(** [SplitN(s, sep, 2)] of a string without the separator is the string. *)
Lemma SplitN_2_without_sep s sep :
  Count s sep = 0 -> SplitN s sep 2 = [s].
Proof.
  intros H. unfold SplitN, genSplit. cbn [Z.eqb Z.ltb Z.compare].
  destruct (Z.to_nat _); cbn [genSplit_loop]; [ reflexivity | ].
  now rewrite (IndexByte_absent _ _ H).
Qed.

(** [SplitN(l + sep + r, sep, 2)] is [[l; r]] when [l] has no separator. *)
Lemma SplitN_2_append l sep r :
  Count l sep = 0 -> SplitN (l ++ String sep r) sep 2 = [l; r].
Proof.
  intros H.
  assert (Hc : 0 < Count (l ++ String sep r) sep).
  { rewrite Count_append. cbn [Count]. rewrite Ascii.eqb_refl.
    pose proof (Count_nonneg r sep). lia. }
  rewrite (SplitN_2_first _ _ Hc), (IndexByte_append _ _ _ H).
  unfold slice_to, slice_from, len.
  rewrite Nat2Z.id.
  replace (Z.to_nat (Z.of_nat (String.length l) + 1))
    with (String.length (l ++ String sep "")).
  2:{ rewrite length_append. cbn. lia. }
  rewrite take_append.
  replace (l ++ String sep r) with ((l ++ String sep "") ++ r)
    by (now rewrite append_assoc).
  now rewrite drop_append.
Qed.

End StringFacts.

(** * Properties of [parseBinds] *)

Section BindFacts.

Import GoStrings Client.

(** The two shapes the first-[=] split of an element can have. *)
Lemma SplitN_Equal_shape bind :
  (exists c0, SplitN bind Equal 2 = [c0])
  \/ (exists c0 c1, SplitN bind Equal 2 = [c0; c1]).
Proof.
  pose proof (SplitN_length bind Equal 2 ltac:(lia)) as H.
  change (Z.to_nat 2) with 2 in H.
  destruct (SplitN bind Equal 2) as [| c0 [| c1 [| c2 l]]]; cbn in H.
  - lia.
  - left. now exists c0.
  - right. now exists c0, c1.
  - lia.
Qed.

(** One pass of the loop over an element that splits into [local] and
    [remote], both non-empty: its line is appended and the loop goes on. *)
Lemma parseBinds_loop_accepts tmp i bind binds fstab local remote :
  SplitN bind Equal 2 = [local; remote] \/
  (SplitN bind Equal 2 = [local] /\ remote = local) ->
  bind <> "" -> local <> "" -> remote <> "" ->
  parseBinds_loop tmp i (bind :: binds) fstab
  = parseBinds_loop tmp (S i) binds (fstab ++ fstab_line tmp local remote).
Proof.
  intros Hc Hb Hl Hr. cbn [parseBinds_loop].
  rewrite (len_nonzero _ Hb).
  destruct Hc as [-> | [-> ->]];
    now rewrite (len_nonzero _ Hl), ?(len_nonzero _ Hr).
Qed.

(** The loop returns neither of the two errors of the [switch len(c)]
    statement. *)
Lemma parseBinds_loop_no_split_error tmp binds : forall i fstab j b,
  snd (parseBinds_loop tmp i binds fstab) <> Some (ErrEmptyElements j b)
  /\ snd (parseBinds_loop tmp i binds fstab) <> Some (ErrTooManyElements j b).
Proof.
  induction binds as [| bind binds IH]; intros i fstab j b;
    cbn [parseBinds_loop].
  - split; discriminate.
  - destruct (len bind =? 0)%Z; [ split; discriminate | ].
    destruct (SplitN_Equal_shape bind) as [[c0 ->] | [c0 [c1 ->]]].
    + destruct (len c0 =? 0)%Z; [ split; discriminate | apply IH ].
    + destruct (len c0 =? 0)%Z; [ split; discriminate | ].
      destruct (len c1 =? 0)%Z; [ split; discriminate | apply IH ].
Qed.

(** C9: the first-[=] split of an element has one or two fields, and
    [parseBinds] returns neither "empty elements are not supported" nor
    "too many elements around = sign", whatever its arguments. *)
Theorem parseBinds_split_errors_unreachable :
  (forall bind,
      List.length (SplitN bind Equal 2) = 1
      \/ List.length (SplitN bind Equal 2) = 2)
  /\ (forall s tmp i bind,
        snd (parseBinds s tmp) <> Some (ErrEmptyElements i bind)
        /\ snd (parseBinds s tmp) <> Some (ErrTooManyElements i bind)).
Proof.
  split.
  - intros bind.
    destruct (SplitN_Equal_shape bind) as [[c0 ->] | [c0 [c1 ->]]];
      [ now left | now right ].
  - intros s tmp i bind. unfold parseBinds.
    destruct (len s =? 0)%Z; [ split; discriminate | ].
    apply parseBinds_loop_no_split_error.
Qed.

(** ** A single [local=remote] element *)

(** C6, as stated, fails: the device path is cleaned by [filepath.Join], so a
    remote path with a leading slash does not appear verbatim. *)
Lemma parseBinds_remote_not_verbatim :
  parseBinds "a=/b" "/tmp"
  = ("/tmp/cpu/b a none defaults,bind 0 0" ++ NL, None)
  /\ parseBinds "a=/b" "/tmp"
     <> (("/tmp" ++ "/cpu/" ++ "/b") ++ " " ++ "a"
         ++ " none defaults,bind 0 0" ++ NL, None).
Proof. split; [ reflexivity | discriminate ]. Qed.

(** C6, amended: for non-empty [local] and [remote] without [=] and [:],
    [parseBinds] of ["local=remote"] succeeds and returns exactly one line,
    [<device> local none defaults,bind 0 0] and a newline, where [local] is
    verbatim and [<device>] is [filepath.Join(root, "cpu", remote)]: the
    cleaned form of [root/cpu/remote] (of [cpu/remote] when [root] is empty),
    which is that path verbatim only when it is already clean. *)
Theorem parseBinds_single_pair local remote root :
  local <> "" -> remote <> "" ->
  Count local Equal = 0%Z -> Count local Colon = 0%Z ->
  Count remote Equal = 0%Z -> Count remote Colon = 0%Z ->
  parseBinds (local ++ "=" ++ remote) root
  = (GoFilepath.Clean
       (if (String.length root =? 0)%nat then "cpu/" ++ remote
        else root ++ "/cpu/" ++ remote)
       ++ " " ++ local ++ " none defaults,bind 0 0" ++ NL, None)
  /\ (root <> "" ->
      GoFilepath.Clean (root ++ "/cpu/" ++ remote) = root ++ "/cpu/" ++ remote ->
      parseBinds (local ++ "=" ++ remote) root
      = ((root ++ "/cpu/" ++ remote)
           ++ " " ++ local ++ " none defaults,bind 0 0" ++ NL, None)).
Proof.
  intros Hl Hr HlE HlC HrE HrC.
  assert (Hb : local ++ "=" ++ remote <> "").
  { intros H. apply append_eq_empty in H. now destruct H. }
  assert (HC : Count (local ++ "=" ++ remote) Colon = 0%Z).
  { rewrite !Count_append. cbn. lia. }
  assert (E : parseBinds (local ++ "=" ++ remote) root
              = (fstab_line root local remote, None)).
  { unfold parseBinds. rewrite (len_nonzero _ Hb), (Split_without_sep _ _ HC).
    rewrite (parseBinds_loop_accepts root 0 _ [] "" local remote);
      try assumption; [ reflexivity | ].
    left. change ("=" ++ remote) with (String Equal remote).
    now apply SplitN_2_append. }
  assert (J : GoFilepath.Join [root; "cpu"; remote]
              = GoFilepath.Clean
                  (if (String.length root =? 0)%nat then "cpu/" ++ remote
                   else root ++ "/cpu/" ++ remote)).
  { cbn [GoFilepath.Join]. destruct root; reflexivity. }
  split.
  - rewrite E. unfold fstab_line, Sprintf_line. now rewrite J.
  - intros Hroot HClean. rewrite E. unfold fstab_line, Sprintf_line.
    rewrite J. destruct root; [ contradiction | ]. cbn [String.length Nat.eqb].
    now rewrite HClean.
Qed.

(** The theorem at [local = "/home"], [remote = "home"], [root = "/tmp"]. *)
Lemma parseBinds_single_pair_witness :
  parseBinds ("/home" ++ "=" ++ "home") "/tmp"
  = (GoFilepath.Clean "/tmp/cpu/home"
       ++ " " ++ "/home" ++ " none defaults,bind 0 0" ++ NL, None)
  /\ parseBinds ("/home" ++ "=" ++ "home") "/tmp"
     = ("/tmp/cpu/home /home none defaults,bind 0 0" ++ NL, None).
Proof.
  assert (H := parseBinds_single_pair "/home" "home" "/tmp").
  destruct H as [H1 H2]; try discriminate; try reflexivity.
  split; [ exact H1 | apply H2; [ discriminate | reflexivity ] ].
Defined.

(** ** Elements with more than one [=] *)

(** C7, as stated, fails: an element with more than one [=] that starts with
    one has an empty local half and is rejected. *)
Lemma parseBinds_leading_equal_rejected :
  (1 < Count "=b=c" Equal)%Z
  /\ SplitN "=b=c" Equal 2 = [""; "b=c"]
  /\ parseBinds "=b=c" "/tmp" = ("", Some (ErrLocalZeroLength 0 "=b=c")).
Proof. repeat split. Qed.

(** C7, amended: an element with more than one [=] is split at the first one
    only: [local] is the text before it and [remote] all that follows, later
    [=] included (["a=b=c"] gives ["a"] and ["b=c"]).  Such an element is
    accepted when the text before the first [=] is not empty; it is never
    rejected for its number of [=], but one that starts with [=] is rejected
    for its empty local half. *)
Theorem parseBinds_splits_on_first_equal entry :
  (1 < Count entry Equal)%Z ->
  exists local remote,
    entry = local ++ "=" ++ remote
    /\ Count local Equal = 0%Z
    /\ (0 < Count remote Equal)%Z
    /\ SplitN entry Equal 2 = [local; remote]
    /\ (forall tmp i binds fstab,
          local <> "" ->
          parseBinds_loop tmp i (entry :: binds) fstab
          = parseBinds_loop tmp (S i) binds
              (fstab ++ fstab_line tmp local remote))
    /\ (forall tmp,
          local <> "" -> Count entry Colon = 0%Z ->
          parseBinds entry tmp = (fstab_line tmp local remote, None))
    /\ (forall tmp i binds fstab,
          local = "" ->
          parseBinds_loop tmp i (entry :: binds) fstab
          = (fstab, Some (ErrLocalZeroLength i entry))).
Proof.
  intros Hc.
  assert (Hpos : (0 < Count entry Equal)%Z) by lia.
  pose proof (IndexByte_present _ _ Hpos) as Hm.
  destruct (IndexByte_first _ _ Hm) as [Hcut Hl].
  pose proof (SplitN_2_first _ _ Hpos) as Hs.
  set (local := slice_to entry (IndexByte entry Equal)) in *.
  set (remote := slice_from entry (IndexByte entry Equal + 1)) in *.
  assert (Hr : (0 < Count remote Equal)%Z).
  { rewrite Hcut, Count_append in Hc. cbn [Count] in Hc.
    rewrite Ascii.eqb_refl in Hc. lia. }
  assert (Hrne : remote <> "") by (intros E; rewrite E in Hr; cbn in Hr; lia).
  assert (Hene : entry <> "") by (intros E; rewrite E in Hc; cbn in Hc; lia).
  exists local, remote. repeat split; try assumption.
  - intros tmp i binds fstab Hlne.
    apply parseBinds_loop_accepts; auto.
  - intros tmp Hlne HC. unfold parseBinds.
    rewrite (len_nonzero _ Hene), (Split_without_sep _ _ HC).
    rewrite (parseBinds_loop_accepts tmp 0 _ [] "" local remote); auto.
  - intros tmp i binds fstab Hle. cbn [parseBinds_loop].
    rewrite (len_nonzero _ Hene), Hs, Hle. reflexivity.
Qed.

(** The theorem at the element ["a=b=c"]. *)
Lemma parseBinds_splits_on_first_equal_witness :
  (1 < Count "a=b=c" Equal)%Z
  /\ exists local remote,
      "a=b=c" = local ++ "=" ++ remote
      /\ SplitN "a=b=c" Equal 2 = [local; remote]
      /\ (local <> "" ->
          parseBinds "a=b=c" "/tmp" = (fstab_line "/tmp" local remote, None)).
Proof.
  split; [ reflexivity | ].
  destruct (parseBinds_splits_on_first_equal "a=b=c")
    as (local & remote & H1 & _ & _ & H4 & _ & H6 & _); [ reflexivity | ].
  exists local, remote. repeat split; try assumption.
  intros Hl. now apply H6.
Defined.

(** The example of the claim. *)
Lemma parseBinds_a_b_c :
  SplitN "a=b=c" Equal 2 = ["a"; "b=c"]
  /\ parseBinds "a=b=c" "/tmp"
     = ("/tmp/cpu/b=c a none defaults,bind 0 0" ++ NL, None).
Proof. split; reflexivity. Qed.

(** ** What comes back with an error *)

Lemma fstab_line_nonempty tmp local remote : fstab_line tmp local remote <> "".
Proof.
  unfold fstab_line, Sprintf_line. intros H.
  apply append_eq_empty in H. destruct H as [_ H]. discriminate H.
Qed.

(** A successful run of the loop only appends to [fstab], and appends
    something when there is an element. *)
Lemma parseBinds_loop_appends tmp binds : forall i fstab frag,
  parseBinds_loop tmp i binds fstab = (frag, None) ->
  exists lines, frag = fstab ++ lines /\ (binds <> [] -> lines <> "").
Proof.
  induction binds as [| bind binds IH]; intros i fstab frag;
    cbn [parseBinds_loop].
  - intros [= <-]. exists "". split; [ now rewrite append_empty_r | easy ].
  - destruct (len bind =? 0)%Z; [ discriminate | ].
    assert (Hgo : forall local remote,
      parseBinds_loop tmp (S i) binds (fstab ++ fstab_line tmp local remote)
      = (frag, None) ->
      exists lines, frag = fstab ++ lines /\ (bind :: binds <> [] -> lines <> "")).
    { intros local remote H. destruct (IH _ _ _ H) as (lines & -> & _).
      exists (fstab_line tmp local remote ++ lines).
      split; [ now rewrite append_assoc | ].
      intros _ E. apply append_eq_empty in E.
      now apply (fstab_line_nonempty tmp local remote). }
    destruct (SplitN_Equal_shape bind) as [[c0 ->] | [c0 [c1 ->]]].
    + destruct (len c0 =? 0)%Z; [ discriminate | apply Hgo ].
    + destruct (len c0 =? 0)%Z; [ discriminate | ].
      destruct (len c1 =? 0)%Z; [ discriminate | apply Hgo ].
Qed.

(** When the loop returns an error, the error is about the first element that
    fails a check, the elements before it were all accepted, and the string
    returned is empty for a zero-length element and the [fstab] built from
    the accepted elements otherwise. *)
Lemma parseBinds_loop_error tmp binds : forall i fstab frag e,
  parseBinds_loop tmp i binds fstab = (frag, Some e) ->
  exists k bind built,
    nth_error binds k = Some bind
    /\ parseBinds_loop tmp i (firstn k binds) fstab = (built, None)
    /\ ((bind = "" /\ e = ErrZeroLength (i + k) /\ frag = "")
        \/ (bind <> ""
            /\ (e = ErrLocalZeroLength (i + k) bind
                \/ e = ErrRemoteZeroLength (i + k) bind)
            /\ frag = built)).
Proof.
  induction binds as [| bind binds IH]; intros i fstab frag e;
    cbn [parseBinds_loop]; [ discriminate | ].
  destruct (len bind =? 0)%Z eqn:Eb.
  { intros [= <- <-]. apply len_zero in Eb.
    exists 0, bind, fstab. rewrite Nat.add_0_r. cbn.
    split; [ reflexivity | ]. split; [ reflexivity | ]. left. now repeat split. }
  assert (Hb : bind <> "").
  { intros E. apply len_zero in E. congruence. }
  assert (Hgo : forall local remote,
    SplitN bind Equal 2 = [local; remote]
    \/ SplitN bind Equal 2 = [local] /\ remote = local ->
    (len local =? 0)%Z = false -> (len remote =? 0)%Z = false ->
    parseBinds_loop tmp (S i) binds (fstab ++ fstab_line tmp local remote)
    = (frag, Some e) ->
    exists k bind0 built,
      nth_error (bind :: binds) k = Some bind0
      /\ parseBinds_loop tmp i (firstn k (bind :: binds)) fstab = (built, None)
      /\ ((bind0 = "" /\ e = ErrZeroLength (i + k) /\ frag = "")
          \/ (bind0 <> ""
              /\ (e = ErrLocalZeroLength (i + k) bind0
                  \/ e = ErrRemoteZeroLength (i + k) bind0)
              /\ frag = built))).
  { intros local remote Hc Hl Hr H.
    destruct (IH _ _ _ _ H) as (k & bind0 & built & Hn & Hp & Hk).
    exists (S k), bind0, built. rewrite Nat.add_succ_r. cbn [nth_error firstn].
    repeat split; try assumption.
    rewrite (parseBinds_loop_accepts tmp i bind _ fstab local remote);
      try assumption.
    - intros E. apply len_zero in E. congruence.
    - intros E. apply len_zero in E. congruence. }
  assert (Hstop : forall e0 : error,
    e0 = ErrLocalZeroLength i bind \/ e0 = ErrRemoteZeroLength i bind ->
    (fstab, Some e0) = (frag, Some e) ->
    exists k bind0 built,
      nth_error (bind :: binds) k = Some bind0
      /\ parseBinds_loop tmp i (firstn k (bind :: binds)) fstab = (built, None)
      /\ ((bind0 = "" /\ e = ErrZeroLength (i + k) /\ frag = "")
          \/ (bind0 <> ""
              /\ (e = ErrLocalZeroLength (i + k) bind0
                  \/ e = ErrRemoteZeroLength (i + k) bind0)
              /\ frag = built))).
  { intros e0 He0 [= <- <-]. exists 0, bind, fstab.
    rewrite Nat.add_0_r. cbn.
    split; [ reflexivity | ]. split; [ reflexivity | ]. right.
    now repeat split. }
  destruct (SplitN_Equal_shape bind) as [[c0 Hc] | [c0 [c1 Hc]]]; rewrite Hc.
  - destruct (len c0 =? 0)%Z eqn:E0; [ apply Hstop; now left | ].
    apply (Hgo c0 c0); auto.
  - destruct (len c0 =? 0)%Z eqn:E0; [ apply Hstop; now left | ].
    destruct (len c1 =? 0)%Z eqn:E1; [ apply Hstop; now right | ].
    apply (Hgo c0 c1); auto.
Qed.

(** C2: evaluation at the inputs where the code departs from the claim.
    When an element after the first has an empty local or remote half, the
    lines built for the elements before it come back with the error.  The
    zero-length check, on the same first element, does return the empty
    string with its error. *)
Theorem parseBinds_error_with_partial_fstab :
  parseBinds "a:=x" "/tmp"
  = ("/tmp/cpu/a a none defaults,bind 0 0" ++ NL,
     Some (ErrLocalZeroLength 1 "=x"))
  /\ fst (parseBinds "a:=x" "/tmp") <> ""
  /\ parseBinds "a:x=" "/tmp"
     = ("/tmp/cpu/a a none defaults,bind 0 0" ++ NL,
        Some (ErrRemoteZeroLength 1 "x="))
  /\ parseBinds "a::x" "/tmp" = ("", Some (ErrZeroLength 1)).
Proof. repeat split. discriminate. Qed.

(** What comes back with an error, for every spec: the error is for the
    first offending element, all elements before it having been accepted.
    The string returned with it is empty when that element is zero-length;
    when its local or remote half is empty, the string is the [fstab] built
    from the elements before it, which is not empty as soon as there is
    one. *)
Lemma parseBinds_error_returns_built_fstab s tmp frag e :
  parseBinds s tmp = (frag, Some e) ->
  exists k bind built,
    nth_error (Split s Colon) k = Some bind
    /\ parseBinds_loop tmp 0 (firstn k (Split s Colon)) "" = (built, None)
    /\ (0 < k -> built <> "")
    /\ ((bind = "" /\ e = ErrZeroLength k /\ frag = "")
        \/ (bind <> ""
            /\ (e = ErrLocalZeroLength k bind
                \/ e = ErrRemoteZeroLength k bind)
            /\ frag = built)).
Proof.
  unfold parseBinds. destruct (len s =? 0)%Z; [ discriminate | ].
  intros H. destruct (parseBinds_loop_error _ _ _ _ _ _ H)
    as (k & bind & built & Hn & Hp & Hk).
  exists k, bind, built. cbn [Nat.add] in Hk. repeat split; try assumption.
  intros Hpos. destruct (parseBinds_loop_appends _ _ _ _ _ Hp)
    as (lines & -> & Hne).
  cbn [append]. apply Hne.
  destruct k; [ lia | ]. destruct (Split s Colon); [ discriminate | ].
  discriminate.
Qed.

(** The lemma at ["a:=x"]. *)
Lemma parseBinds_error_returns_built_fstab_witness :
  exists k bind built,
    nth_error (Split "a:=x" Colon) k = Some bind
    /\ parseBinds_loop "/tmp" 0 (firstn k (Split "a:=x" Colon)) ""
       = (built, None)
    /\ (0 < k -> built <> "")
    /\ ((bind = "" /\ ErrLocalZeroLength 1 "=x" = ErrZeroLength k
         /\ "/tmp/cpu/a a none defaults,bind 0 0" ++ NL = "")
        \/ (bind <> ""
            /\ (ErrLocalZeroLength 1 "=x" = ErrLocalZeroLength k bind
                \/ ErrLocalZeroLength 1 "=x" = ErrRemoteZeroLength k bind)
            /\ "/tmp/cpu/a a none defaults,bind 0 0" ++ NL = built)).
Proof.
  apply (parseBinds_error_returns_built_fstab "a:=x" "/tmp").
  reflexivity.
Defined.

End BindFacts.

(** * Properties of [joinFSTab] *)

Section JoinFacts.

Import GoStrings Client.

Lemma TrimRight_append_cut s c : TrimRight (s ++ String c "") c = TrimRight s c.
Proof.
  induction s as [| a s IH]; cbn [append TrimRight].
  - now rewrite Ascii.eqb_refl.
  - now rewrite IH.
Qed.

Lemma TrimRight_idempotent s c : TrimRight (TrimRight s c) c = TrimRight s c.
Proof.
  induction s as [| a s IH]; cbn [TrimRight]; [ reflexivity | ].
  destruct (TrimRight s c) as [| y r] eqn:E.
  - destruct (a =? c)%char eqn:Ea; cbn [TrimRight]; [ reflexivity | ].
    now rewrite Ea.
  - cbn [TrimRight] in *. now rewrite IH.
Qed.

(** Trimming reaches only into the last part when something of it stays. *)
Lemma TrimRight_append_kept s1 s2 c :
  TrimRight s2 c <> "" -> TrimRight (s1 ++ s2) c = s1 ++ TrimRight s2 c.
Proof.
  intros H. induction s1 as [| a s1 IH]; cbn [append TrimRight].
  - reflexivity.
  - rewrite IH. destruct (s1 ++ TrimRight s2 c) eqn:E; [ | reflexivity ].
    apply append_eq_empty in E. now destruct E.
Qed.

(** The test for an empty table changes nothing: trimming leaves the empty
    string empty. *)
Lemma trim_table t :
  (if (len t =? 0)%Z then t else TrimRight t LF) = TrimRight t LF.
Proof.
  destruct (len t =? 0)%Z eqn:E; [ | reflexivity ].
  apply len_zero in E. now subst.
Qed.

(** A joined list ends with its last element. *)
Lemma Join_ends_with_last sep xs : forall x,
  exists p, GoStrings.Join (xs ++ [x]) sep = p ++ x.
Proof.
  induction xs as [| y xs IH]; intros x.
  - now exists "".
  - destruct (IH x) as [p Hp]. cbn [app GoStrings.Join].
    destruct (xs ++ [x])%list eqn:E.
    + now destruct xs.
    + rewrite Hp. exists (y ++ sep ++ p). now rewrite !append_assoc.
Qed.

(** What [joinFSTab] returns for a list that is not empty. *)
Lemma joinFSTab_nonempty xs x :
  joinFSTab (xs ++ [x])
  = GoStrings.Join (map (fun t => TrimRight t LF) (xs ++ [x])) NL ++ NL.
Proof.
  unfold joinFSTab. rewrite length_app. cbn [List.length].
  destruct (Z.of_nat _ =? 0)%Z eqn:E; [ apply Z.eqb_eq in E; lia | ].
  f_equal. f_equal. apply map_ext. intros t. apply trim_table.
Qed.

(** Joining the output of [joinFSTab] again changes nothing when the last
    table holds more than newlines. *)
Lemma joinFSTab_rejoin xs x :
  TrimRight x LF <> "" ->
  joinFSTab [joinFSTab (xs ++ [x])] = joinFSTab (xs ++ [x]).
Proof.
  intros Hx.
  change [joinFSTab (xs ++ [x])] with ([] ++ [joinFSTab (xs ++ [x])])%list.
  rewrite (joinFSTab_nonempty [] (joinFSTab _)). cbn [app map].
  cbn [GoStrings.Join]. rewrite joinFSTab_nonempty at 2. f_equal.
  rewrite joinFSTab_nonempty, map_app. cbn [map].
  destruct (Join_ends_with_last NL (map (fun t => TrimRight t LF) xs)
              (TrimRight x LF)) as [p ->].
  unfold NL at 1. rewrite TrimRight_append_cut.
  rewrite TrimRight_append_kept; rewrite TrimRight_idempotent;
    [ reflexivity | assumption ].
Qed.

(** ** Empty fragments *)

(** C3: evaluation at the inputs where the code departs from the claim.  An
    empty table is left in the list, so it is joined like any other:
    [joinFSTab("")] is one newline, [joinFSTab("", "")] two, and an empty table
    between two others gives a blank line.  Only the empty list gives the
    empty string. *)
Theorem joinFSTab_keeps_empty_tables :
  joinFSTab [] = ""
  /\ joinFSTab [""] = NL
  /\ joinFSTab [""; ""] = NL ++ NL
  /\ joinFSTab ["a"; ""; "b"] = "a" ++ NL ++ NL ++ "b" ++ NL.
Proof. repeat split. Qed.

(** ** Joining again *)

(** C8: evaluation at the inputs where the code departs from the claim, and
    at the examples of the claim.  Joining the result for the empty list, or
    for a list that ends with an empty table, changes it. *)
Theorem joinFSTab_rejoin_changes_result :
  joinFSTab [] = ""
  /\ joinFSTab [joinFSTab []] = NL
  /\ joinFSTab ["a"; ""] = "a" ++ NL ++ NL
  /\ joinFSTab [joinFSTab ["a"; ""]] = "a" ++ NL
  /\ joinFSTab ["a" ++ NL ++ NL; "b"] = "a" ++ NL ++ "b" ++ NL
  /\ joinFSTab [joinFSTab ["a"; "b"]] = joinFSTab ["a"; "b"].
Proof. repeat split. Qed.

End JoinFacts.

(** * Properties of the [filepath] functions *)

Section PathFacts.

Import GoStrings GoFilepath.

Lemma drop_length k s : (String.length (drop k s) <= String.length s)%nat.
Proof.
  revert s. induction k as [| k IH]; intros s; cbn [drop]; [ lia | ].
  destruct s as [| a s]; cbn [String.length]; [ lia | ].
  specialize (IH s). lia.
Qed.

(** What follows a path element is no longer than the path. *)
Lemma element_rest_length p :
  (String.length (snd (element p)) <= String.length p)%nat.
Proof.
  induction p as [| c p IH]; cbn [element]; [ cbn; lia | ].
  destruct (IsPathSeparator c); [ cbn; lia | ].
  destruct (element p) as [e rest]. cbn [snd String.length] in *. lia.
Qed.

(** The loop of [Clean] stops by reaching the end of the path, not by using up
    its fuel: any two amounts above the length of the path give the same
    result. *)
Lemma Clean_loop_enough_fuel f1 : forall f2 rooted p out dotdot,
  (String.length p < f1)%nat -> (String.length p < f2)%nat ->
  Clean_loop f1 rooted p out dotdot = Clean_loop f2 rooted p out dotdot.
Proof.
  induction f1 as [| f1 IH]; intros f2 rooted p out dotdot H1 H2; [ lia | ].
  destruct f2 as [| f2]; [ lia | ].
  cbn [Clean_loop].
  destruct p as [| c p1]; [ reflexivity | ].
  cbn [String.length] in H1, H2.
  pose proof (drop_length 1 p1) as Hd.
  destruct (IsPathSeparator c) eqn:Ec; [ apply IH; lia | ].
  destruct ((c =? Dot)%char && ends_element p1); [ apply IH; lia | ].
  match goal with |- context [if ?b then _ else _] => destruct b end.
  - destruct (dotdot <? String.length out)%nat; [ apply IH; lia | ].
    destruct (negb rooted); apply IH; lia.
  - pose proof (element_rest_length (String c p1)) as He.
    cbn [element] in *. rewrite Ec in *.
    destruct (element p1) as [e rest] eqn:Ee.
    pose proof (element_rest_length p1) as He1. rewrite Ee in He1.
    cbn [snd] in He1. apply IH; lia.
Qed.

(** [Clean] on the examples of the package documentation. *)
Lemma Clean_examples :
  Clean "abc//def//ghi" = "abc/def/ghi"
  /\ Clean "abc/./def" = "abc/def"
  /\ Clean "abc/def/../ghi" = "abc/ghi"
  /\ Clean "/../abc" = "/abc"
  /\ Clean "../../abc" = "../../abc"
  /\ Clean "abc/.." = "."
  /\ Clean "" = "."
  /\ Clean "/" = "/".
Proof. repeat split. Qed.

(** [Join] skips leading empty elements and cleans the rest. *)
Lemma Join_examples :
  Join ["/tmp"; "cpu"; "home"] = "/tmp/cpu/home"
  /\ Join ["/tmp"; "cpu"; "/home"] = "/tmp/cpu/home"
  /\ Join [""; "cpu"; "home"] = "cpu/home"
  /\ Join ["/tmp"; "cpu"; ".."] = "/tmp"
  /\ Join [""; ""] = "".
Proof. repeat split. Qed.

End PathFacts.

(** * More on the relay *)

Section RelayRuns.

Import Relay.

Local Open Scope list_scope.

Local Abbreviation body := (Relay.body (list ascii) record).
Local Abbreviation loop := (Relay.loop (list ascii) record).
Local Abbreviation flags := (Relay.flags (list ascii) record).

(** On a recording sink the body returns only to close the session. *)
Lemma body_record_return w newLine tilde b w' closed :
  body w newLine tilde b = Return _ w' closed -> closed = true /\ w' = w.
Proof.
  destruct (classify b) as [Hlt | -> | -> | H1 H2 H3 H4].
  - now rewrite (body_line_terminator _ _ _ _ Hlt).
  - rewrite body_tilde. now destruct newLine.
  - rewrite body_dot. destruct tilde; [ | discriminate ].
    intros [= <- <-]. now split.
  - now rewrite body_other.
Qed.

(** While the loop is running, it has forwarded what [flags] reports and the
    session is open; once [flags] is [None] the session was closed. *)
Lemma loop_flags r : forall w newLine tilde,
  match flags w newLine tilde r with
  | Some (w', _, _) => loop w newLine tilde r = (w', false)
  | None => snd (loop w newLine tilde r) = true
  end.
Proof.
  induction r as [| b r IH]; intros w newLine tilde; cbn; [ reflexivity | ].
  destruct (body w newLine tilde b) as [w1 nl1 t1 | w1 closed] eqn:E.
  - apply IH.
  - now destruct (body_record_return _ _ _ _ _ _ E) as [-> _].
Qed.

Lemma flags_app r1 : forall r2 w newLine tilde,
  flags w newLine tilde (r1 ++ r2) =
    match flags w newLine tilde r1 with
    | Some (w', newLine', tilde') => flags w' newLine' tilde' r2
    | None => None
    end.
Proof.
  induction r1 as [| b r1 IH]; intros r2 w newLine tilde; cbn.
  - reflexivity.
  - destruct (body w newLine tilde b); [ apply IH | reflexivity ].
Qed.

(** X1: an input without ['~'] is forwarded byte for byte and the session is
    left open, whatever line terminators and ['.'] it holds. *)
Theorem SSHStdin_forwards_input_without_tilde r :
  ~ In Tilde r -> relay r = (r, false).
Proof. apply relay_without_tilde. Qed.

(** The theorem at the bytes of ["hello\n"]. *)
Lemma SSHStdin_forwards_input_without_tilde_witness :
  relay ["h"; "e"; "l"; "l"; "o"; LF]%char
  = (["h"; "e"; "l"; "l"; "o"; LF]%char, false).
Proof.
  apply SSHStdin_forwards_input_without_tilde.
  cbn. intros H. repeat (destruct H as [H | H]; [ discriminate H | ]).
  exact H.
Defined.

Lemma loop_without_line_terminator r : forall w,
  ~ In LF r -> ~ In CR r -> loop w false false r = (w ++ r, false).
Proof.
  induction r as [| b r IH]; intros w HLF HCR; cbn [Relay.loop].
  - now rewrite app_nil_r.
  - assert (H1 : b <> LF) by (intros ->; apply HLF; now left).
    assert (H2 : b <> CR) by (intros ->; apply HCR; now left).
    assert (HLF' : ~ In LF r) by (intros H; apply HLF; now right).
    assert (HCR' : ~ In CR r) by (intros H; apply HCR; now right).
    destruct (classify b) as [[Hlt | Hlt] | -> | -> | _ _ H3 H4];
      try contradiction.
    + rewrite body_tilde, IH by assumption. now rewrite <- app_assoc.
    + rewrite body_dot, IH by assumption. now rewrite <- app_assoc.
    + rewrite body_other, IH by assumption. now rewrite <- app_assoc.
Qed.

(** X2: an input without a line terminator is forwarded byte for byte and
    never closes the session: no ['~'] in it is at the start of a line, the
    first byte of the stream included. *)
Theorem SSHStdin_forwards_input_without_line_terminator r :
  ~ In LF r -> ~ In CR r -> relay r = (r, false).
Proof.
  intros HLF HCR. unfold relay, SSHStdin.
  now rewrite loop_without_line_terminator.
Qed.

(** The theorem at the bytes of ["~.~."]. *)
Lemma SSHStdin_forwards_input_without_line_terminator_witness :
  relay [Tilde; Dot; Tilde; Dot] = ([Tilde; Dot; Tilde; Dot], false).
Proof.
  apply SSHStdin_forwards_input_without_line_terminator;
    cbn; intros H; repeat (destruct H as [H | H]; [ discriminate H | ]);
    exact H.
Defined.

(** X3: once the session is closed nothing more is relayed: whatever follows
    an input that closes the session changes neither what was forwarded nor
    the outcome. *)
Theorem SSHStdin_closed_is_final r1 r2 :
  snd (relay r1) = true -> relay (r1 ++ r2) = relay r1.
Proof.
  unfold relay, SSHStdin. intros H. rewrite loop_app.
  pose proof (loop_flags r1 [] false false) as Hf.
  destruct (flags [] false false r1) as [[[w' nl'] t'] |]; [ | reflexivity ].
  rewrite Hf in H. discriminate H.
Qed.

(** The theorem at an input that closes the session after one line. *)
Lemma SSHStdin_closed_is_final_witness :
  relay ([LF; Tilde; Dot] ++ ["l"; "s"; LF]%char) = relay [LF; Tilde; Dot].
Proof. apply SSHStdin_closed_is_final. reflexivity. Defined.

(** After a line terminator the [newLine] flag is set. *)
Lemma flags_after_line_terminator r b w newLine tilde w' newLine' tilde' :
  b = LF \/ b = CR ->
  flags w newLine tilde (r ++ [b]) = Some (w', newLine', tilde') ->
  newLine' = true.
Proof.
  intros Hb. rewrite flags_app.
  destruct (flags w newLine tilde r) as [[[w1 nl1] t1] |]; [ | discriminate ].
  cbn [Relay.flags]. rewrite (body_line_terminator _ _ _ _ Hb).
  now intros [= _ <- _].
Qed.

(** X4: at the start of a line the kill sequence always works: when the input
    so far ends with a line terminator and the session is still open, ['~']
    ['.'] closes it, neither byte is forwarded, and what follows is not
    read. *)
Theorem SSHStdin_kill_at_line_start r b rest :
  b = LF \/ b = CR ->
  snd (relay (r ++ [b])) = false ->
  relay ((r ++ [b]) ++ Tilde :: Dot :: rest) = (fst (relay (r ++ [b])), true).
Proof.
  unfold relay, SSHStdin. intros Hb Hopen. rewrite loop_app.
  pose proof (loop_flags (r ++ [b]) [] false false) as Hf.
  destruct (flags [] false false (r ++ [b])) as [[[w' nl'] t'] |] eqn:E.
  - rewrite (flags_after_line_terminator _ _ _ _ _ _ _ _ Hb E) in *.
    rewrite Hf. reflexivity.
  - rewrite Hopen in Hf. discriminate Hf.
Qed.

(** The theorem after the line ["ls\n"]. *)
Lemma SSHStdin_kill_at_line_start_witness :
  relay ((["l"; "s"]%char ++ [LF]) ++ Tilde :: Dot :: ["x"%char])
  = (["l"; "s"; LF]%char, true).
Proof.
  apply (SSHStdin_kill_at_line_start ["l"; "s"]%char LF ["x"%char]).
  - now left.
  - reflexivity.
Defined.

(** X5: a ['~'] at the start of a line that is the last byte read before the
    input ends is never forwarded: the relay returns as if it had not been
    typed. *)
Theorem SSHStdin_trailing_tilde_dropped r b :
  b = LF \/ b = CR -> relay ((r ++ [b]) ++ [Tilde]) = relay (r ++ [b]).
Proof.
  unfold relay, SSHStdin. intros Hb. rewrite loop_app.
  pose proof (loop_flags (r ++ [b]) [] false false) as Hf.
  destruct (flags [] false false (r ++ [b])) as [[[w' nl'] t'] |] eqn:E.
  - rewrite (flags_after_line_terminator _ _ _ _ _ _ _ _ Hb E) in *.
    now rewrite Hf.
  - reflexivity.
Qed.

(** The theorem after the line ["ls\n"]. *)
Lemma SSHStdin_trailing_tilde_dropped_witness :
  relay ((["l"; "s"]%char ++ [LF]) ++ [Tilde]) = (["l"; "s"; LF]%char, false).
Proof.
  rewrite (SSHStdin_trailing_tilde_dropped ["l"; "s"]%char LF); [ | now left ].
  reflexivity.
Defined.

(** The bytes written, plus the withheld ['~'] if any, are at most the bytes
    read. *)
Lemma loop_length r : forall w newLine tilde,
  List.length (fst (loop w newLine tilde r))
  <= List.length w + (if tilde then 1 else 0) + List.length r.
Proof.
  induction r as [| b r IH]; intros w newLine tilde; cbn [Relay.loop].
  - cbn. lia.
  - cbn [List.length].
    destruct (classify b) as [Hlt | -> | -> | H1 H2 H3 H4].
    + rewrite (body_line_terminator _ _ _ _ Hlt).
      specialize (IH (w ++ [b]) true tilde).
      rewrite length_app in IH. cbn [List.length] in IH.
        cbn beta iota in IH. lia.
    + rewrite body_tilde. destruct newLine; cbn beta iota.
      * specialize (IH w false true). cbn beta iota in IH.
        destruct tilde; lia.
      * specialize (IH (w ++ [Tilde]) false tilde).
        rewrite length_app in IH. cbn [List.length] in IH.
        cbn beta iota in IH. lia.
    + rewrite body_dot. destruct tilde; cbn beta iota.
      * cbn. lia.
      * specialize (IH (w ++ [Dot]) newLine false).
        rewrite length_app in IH. cbn [List.length] in IH.
        cbn beta iota in IH. lia.
    + rewrite body_other by assumption. destruct tilde; cbn beta iota.
      * specialize (IH (w ++ [Tilde; b]) false false).
        rewrite length_app in IH. cbn [List.length] in IH.
        cbn beta iota in IH. lia.
      * specialize (IH (w ++ [b]) false false).
        rewrite length_app in IH. cbn [List.length] in IH.
        cbn beta iota in IH. lia.
Qed.

(** X6: the relay forwards at most as many bytes as it has read: the only
    byte it writes without having just read it is a ['~'] it withheld
    earlier. *)
Theorem SSHStdin_output_no_longer_than_input r :
  List.length (fst (relay r)) <= List.length r.
Proof. apply (loop_length r [] false false). Qed.

End RelayRuns.

(** * [Split], read structurally *)

Section SplitFacts.

Import GoStrings GoStringsMore.

Local Open Scope Z_scope.

Lemma Count_le_len s c : Count s c <= len s.
Proof.
  induction s as [| a s IH]; cbn [Count]; [ unfold len; cbn; lia | ].
  rewrite len_String. destruct (a =? c)%char; lia.
Qed.

(** [Split] makes as many cuts as there are separators. *)
Lemma Split_unfold s sep :
  Split s sep = genSplit_loop sep 0 (Z.to_nat (Count s sep)) s.
Proof.
  unfold Split, genSplit. cbn [Z.eqb Z.ltb Z.compare].
  pose proof (Count_le_len s sep).
  destruct (Count s sep + 1 >? len s + 1) eqn:E;
    [ apply Z.gtb_lt in E; lia | ].
  f_equal. lia.
Qed.

(** The first piece ends at the first separator. *)
Lemma Split_cons l sep r :
  Count l sep = 0 -> Split (l ++ String sep r) sep = l :: Split r sep.
Proof.
  intros Hl. rewrite !Split_unfold, Count_append. cbn [Count].
  rewrite Ascii.eqb_refl, Hl. pose proof (Count_nonneg r sep).
  replace (Z.to_nat (0 + (1 + Count r sep)))
    with (S (Z.to_nat (Count r sep))) by lia.
  cbn [genSplit_loop]. rewrite (IndexByte_append _ _ _ Hl).
  pose proof (len_nonneg l).
  destruct (len l <? 0) eqn:E; [ apply Z.ltb_lt in E; lia | ].
  unfold slice_to, slice_from, len. rewrite Z.add_0_r, Nat2Z.id.
  rewrite take_append.
  replace (Z.to_nat (Z.of_nat (String.length l) + 1))
    with (String.length (l ++ String sep "")).
  2:{ rewrite length_append. cbn. lia. }
  replace (l ++ String sep r) with ((l ++ String sep "") ++ r)
    by (now rewrite append_assoc).
  now rewrite drop_append.
Qed.

(** [Split] returns the pieces between the separators. *)
Lemma Split_fields s sep : Split s sep = fields s sep.
Proof.
  induction s as [| a s IH]; [ reflexivity | ].
  cbn [fields]. destruct (Ascii.eqb_spec a sep) as [-> | Hne].
  - rewrite <- IH. now apply (Split_cons "" sep s).
  - rewrite <- IH. pose proof (Count_nonneg s sep) as Hc.
    apply Ascii.eqb_neq in Hne.
    destruct (Z.eq_dec (Count s sep) 0) as [H0 | H0].
    + rewrite !Split_without_sep; [ reflexivity | assumption | ].
      cbn [Count]. rewrite Hne. lia.
    + assert (Hpos : 0 < Count s sep) by lia.
      destruct (IndexByte_first _ _ (IndexByte_present _ _ Hpos)) as [Hs Hl].
      set (l := slice_to s (IndexByte s sep)) in *.
      set (r := slice_from s (IndexByte s sep + 1)) in *.
      rewrite Hs, (Split_cons l sep r Hl).
      change (String a (l ++ String sep r)) with (String a l ++ String sep r).
      apply Split_cons. cbn [Count]. rewrite Hne. lia.
Qed.

Lemma fields_nonempty s sep : fields s sep <> [].
Proof.
  destruct s as [| a s]; cbn [fields]; [ discriminate | ].
  destruct (a =? sep)%char; [ discriminate | ].
  destruct (fields s sep); discriminate.
Qed.

(** Joining the pieces with the separator gives the string back. *)
Lemma Join_fields s sep : GoStrings.Join (fields s sep) (String sep "") = s.
Proof.
  induction s as [| a s IH]; [ reflexivity | ].
  cbn [fields]. destruct (Ascii.eqb_spec a sep) as [-> | Hne].
  - pose proof (fields_nonempty s sep).
    destruct (fields s sep) as [| f fs] eqn:E; [ contradiction | ].
    cbn [GoStrings.Join append] in *. now rewrite IH.
  - destruct (fields s sep) as [| f [| g fs]] eqn:E.
    + now destruct (fields_nonempty s sep).
    + cbn [GoStrings.Join] in *. now subst.
    + cbn [GoStrings.Join append] in *. now rewrite IH.
Qed.

(** No piece contains the separator. *)
Lemma fields_without_sep s sep :
  Forall (fun f => Count f sep = 0) (fields s sep).
Proof.
  induction s as [| a s IH]; cbn [fields].
  - now repeat constructor.
  - destruct (a =? sep)%char eqn:Ea; [ now constructor | ].
    destruct (fields s sep) as [| f fs].
    + constructor; [ cbn; now rewrite Ea | constructor ].
    + inversion IH as [| ? ? Hf Hfs]; subst.
      constructor; [ cbn [Count]; rewrite Ea; lia | assumption ].
Qed.

(** The pieces of a string that ends with the separator end with an empty
    piece, and those of one that starts with it start with one. *)
Lemma fields_trailing_sep s sep :
  fields (s ++ String sep "") sep = (fields s sep ++ [""])%list.
Proof.
  induction s as [| a s IH]; cbn [append fields].
  - now rewrite Ascii.eqb_refl.
  - rewrite IH. destruct (a =? sep)%char; [ reflexivity | ].
    pose proof (fields_nonempty s sep).
    destruct (fields s sep); [ contradiction | reflexivity ].
Qed.

Lemma fields_app s1 s2 sep :
  exists fs1 f1 f2 fs2,
    fields s1 sep = (fs1 ++ [f1])%list
    /\ fields s2 sep = f2 :: fs2
    /\ fields (s1 ++ s2) sep = (fs1 ++ (f1 ++ f2)%string :: fs2)%list.
Proof.
  induction s1 as [| a s1 IH].
  - pose proof (fields_nonempty s2 sep).
    destruct (fields s2 sep) as [| f2 fs2] eqn:E; [ contradiction | ].
    exists [], "", f2, fs2. cbn. now rewrite E.
  - destruct IH as (fs1 & f1 & f2 & fs2 & H1 & H2 & H3).
    cbn [append fields]. rewrite H1, H3.
    destruct (a =? sep)%char.
    + exists ("" :: fs1), f1, f2, fs2. now repeat split.
    + destruct fs1 as [| g fs1]; cbn [app].
      * exists [], (String a f1), f2, fs2. now repeat split.
      * exists (String a g :: fs1), f1, f2, fs2. now repeat split.
Qed.

End SplitFacts.

(** * [parseBinds], element by element *)

Section BindRuns.

Import GoStrings GoStringsMore Client ClientMore.

Lemma accepted_empty : accepted "" = false.
Proof. reflexivity. Qed.

Lemma fold_append_app (l1 l2 : list string) :
  fold_right append "" (l1 ++ l2)%list
  = fold_right append "" l1 ++ fold_right append "" l2.
Proof.
  induction l1 as [| a l1 IH]; cbn; [ reflexivity | ].
  now rewrite IH, append_assoc.
Qed.

(** The loop appends the lines of the elements, in order, when all of them
    pass the checks, and returns an error when one does not. *)
Lemma parseBinds_loop_all tmp binds : forall i fstab,
  (forallb accepted binds = true ->
   parseBinds_loop tmp i binds fstab
   = (fstab ++ fold_right append "" (map (line_of tmp) binds), None))
  /\ (forallb accepted binds = false ->
      snd (parseBinds_loop tmp i binds fstab) <> None).
Proof.
  induction binds as [| bind binds IH]; intros i fstab;
    cbn [parseBinds_loop forallb map fold_right].
  - split; [ intros _; now rewrite append_empty_r | discriminate ].
  - unfold accepted at 1 3, line_of, halves.
    destruct (len bind =? 0)%Z; cbn [negb andb];
      [ split; [ discriminate | intros _; discriminate ] | ].
    destruct (SplitN_Equal_shape bind) as [[c0 ->] | [c0 [c1 ->]]];
      cbn [fst snd].
    + destruct (len c0 =? 0)%Z; cbn [negb andb];
        [ split; [ discriminate | intros _; discriminate ] | ].
      destruct (IH (S i) (fstab ++ fstab_line tmp c0 c0)) as [IH1 IH2].
      split; [ | exact IH2 ].
      intros H. rewrite (IH1 H). now rewrite append_assoc.
    + destruct (len c0 =? 0)%Z; cbn [negb andb];
        [ split; [ discriminate | intros _; discriminate ] | ].
      destruct (len c1 =? 0)%Z; cbn [negb andb];
        [ split; [ discriminate | intros _; discriminate ] | ].
      destruct (IH (S i) (fstab ++ fstab_line tmp c0 c1)) as [IH1 IH2].
      split; [ | exact IH2 ].
      intros H. rewrite (IH1 H). now rewrite append_assoc.
Qed.

(** X7: [parseBinds] succeeds on a non-empty spec exactly when every element
    between the colons passes the three checks (element, local half and
    remote half not empty); the fragment is then the lines of the elements,
    one per element and in the order of the spec. *)
Theorem parseBinds_succeeds_iff_all_accepted s tmp :
  s <> "" ->
  (forallb accepted (Split s Colon) = true ->
   parseBinds s tmp
   = (fold_right append "" (map (line_of tmp) (Split s Colon)), None))
  /\ (forallb accepted (Split s Colon) = false ->
      snd (parseBinds s tmp) <> None).
Proof.
  intros Hs. unfold parseBinds. rewrite (len_nonzero _ Hs).
  apply (parseBinds_loop_all tmp (Split s Colon) 0 "").
Qed.

(** The theorem at ["/a=/b:/c"] and at ["/a=:/c"]. *)
Lemma parseBinds_succeeds_iff_all_accepted_witness :
  parseBinds "/a=/b:/c" "/tmp"
  = ("/tmp/cpu/b /a none defaults,bind 0 0" ++ NL
     ++ "/tmp/cpu/c /c none defaults,bind 0 0" ++ NL, None)
  /\ snd (parseBinds "/a=:/c" "/tmp") <> None.
Proof.
  split.
  - refine (proj1 (parseBinds_succeeds_iff_all_accepted "/a=/b:/c" "/tmp" _) _);
      [ discriminate | reflexivity ].
  - refine (proj2 (parseBinds_succeeds_iff_all_accepted "/a=:/c" "/tmp" _) _);
      [ discriminate | reflexivity ].
Defined.

Lemma forallb_accepted_with_empty l1 l2 :
  forallb accepted (l1 ++ "" :: l2)%list = false.
Proof.
  rewrite forallb_app. cbn [forallb]. rewrite accepted_empty.
  now rewrite andb_false_r.
Qed.

Lemma append_nonempty_r s1 s2 : s2 <> "" -> s1 ++ s2 <> "".
Proof. intros H E. apply append_eq_empty in E. now destruct E. Qed.

(** X8: a spec with a leading colon, a trailing colon or two colons in a row
    is never accepted: the empty element between or beside the colons fails
    the zero-length check (unless an earlier element fails first).  With a
    leading colon the error is for element 0 and the string returned is
    empty. *)
Theorem parseBinds_rejects_empty_elements a b tmp :
  parseBinds (":" ++ b) tmp = ("", Some (ErrZeroLength 0))
  /\ snd (parseBinds (a ++ ":") tmp) <> None
  /\ snd (parseBinds (a ++ "::" ++ b) tmp) <> None.
Proof.
  repeat split.
  - unfold parseBinds. rewrite len_nonzero by discriminate.
    rewrite Split_fields. cbn [append fields]. now rewrite Ascii.eqb_refl.
  - apply parseBinds_succeeds_iff_all_accepted.
    + now apply append_nonempty_r.
    + rewrite Split_fields. unfold Colon.
      rewrite (fields_trailing_sep a ":"%char).
      apply forallb_accepted_with_empty.
  - apply parseBinds_succeeds_iff_all_accepted.
    + now apply append_nonempty_r.
    + rewrite Split_fields. unfold Colon.
      destruct (fields_app a ("::" ++ b) ":"%char)
        as (fs1 & f1 & f2 & fs2 & _ & H2 & ->).
      cbn [append fields] in H2. rewrite !Ascii.eqb_refl in H2.
      injection H2 as <- <-.
      change (fs1 ++ (f1 ++ "")%string :: "" :: fields b ":"%char)%list
        with (fs1 ++ [(f1 ++ "")%string] ++ "" :: fields b ":"%char)%list.
      rewrite app_assoc. apply forallb_accepted_with_empty.
Qed.

(** X9: an element without [=] binds a path to itself: for a non-empty [path]
    without [=] and [:], [parseBinds] returns the one line that has
    [filepath.Join(root, "cpu", path)] as device and [path], verbatim, as
    target. *)
Theorem parseBinds_single_path path root :
  path <> "" -> Count path Equal = 0%Z -> Count path Colon = 0%Z ->
  parseBinds path root
  = (GoFilepath.Join [root; "cpu"; path] ++ " " ++ path
       ++ " none defaults,bind 0 0" ++ NL, None).
Proof.
  intros Hp HE HC. unfold parseBinds.
  rewrite (len_nonzero _ Hp), (Split_without_sep _ _ HC).
  rewrite (parseBinds_loop_accepts root 0 path [] "" path path);
    try assumption; [ reflexivity | ].
  right. split; [ now apply SplitN_2_without_sep | reflexivity ].
Qed.

(** The theorem at the path ["/home"]. *)
Lemma parseBinds_single_path_witness :
  parseBinds "/home" "/tmp"
  = ("/tmp/cpu/home /home none defaults,bind 0 0" ++ NL, None).
Proof.
  apply (parseBinds_single_path "/home" "/tmp"); [ discriminate | | ];
    reflexivity.
Defined.

(** A fragment compiled from a non-empty spec ends with the end of a line:
    ["0"] and one newline. *)
Lemma parseBinds_fragment_end s tmp frag :
  s <> "" -> parseBinds s tmp = (frag, None) ->
  exists q, frag = q ++ "0" ++ NL.
Proof.
  intros Hs H.
  destruct (parseBinds_succeeds_iff_all_accepted s tmp Hs) as [H1 H2].
  destruct (forallb accepted (Split s Colon)) eqn:E.
  - rewrite (H1 eq_refl) in H. injection H as <-.
    assert (Hne : Split s Colon <> []).
    { rewrite Split_fields. apply fields_nonempty. }
    destruct (exists_last Hne) as (binds & bind & ->).
    rewrite map_app, fold_append_app. cbn [map fold_right].
    unfold line_of at 2, fstab_line, Sprintf_line.
    eexists. rewrite append_empty_r.
    change " none defaults,bind 0 0" with (" none defaults,bind 0 " ++ "0").
    rewrite <- !append_assoc. reflexivity.
  - exfalso. apply (H2 eq_refl). now rewrite H.
Qed.

End BindRuns.

(** * More on [joinFSTab] *)

Section JoinRuns.

Import GoStrings GoStringsMore Client ClientMore.

(** Joining with a newline and closing with one is giving every element its
    own newline. *)
Lemma Join_NL_lines (xs : list string) :
  xs <> [] ->
  GoStrings.Join xs NL ++ NL = fold_right append "" (map (fun x => x ++ NL) xs).
Proof.
  induction xs as [| x xs IH]; [ contradiction | intros _ ].
  destruct xs as [| y xs].
  - cbn. now rewrite append_empty_r.
  - cbn [GoStrings.Join map fold_right] in *.
    rewrite <- IH by discriminate. now rewrite !append_assoc.
Qed.

Lemma joinFSTab_trimmed xs :
  xs <> [] ->
  joinFSTab xs = GoStrings.Join (map (fun t => TrimRight t LF) xs) NL ++ NL.
Proof.
  intros Hne. destruct (exists_last Hne) as (ys & y & ->).
  apply joinFSTab_nonempty.
Qed.

(** X10: for a list that is not empty, [joinFSTab] gives every table, empty
    ones included, exactly one line end: the result is the tables in order,
    each without its trailing newlines and followed by one newline. *)
Theorem joinFSTab_one_newline_per_table xs :
  xs <> [] ->
  joinFSTab xs
  = fold_right append "" (map (fun t => TrimRight t LF ++ NL) xs).
Proof.
  intros Hne. rewrite (joinFSTab_trimmed xs Hne).
  rewrite Join_NL_lines by (destruct xs; [ contradiction | discriminate ]).
  now rewrite map_map.
Qed.

(** The theorem at two tables with too many and too few newlines. *)
Lemma joinFSTab_one_newline_per_table_witness :
  joinFSTab ["a b" ++ NL ++ NL; "c d"] = "a b" ++ NL ++ "c d" ++ NL.
Proof.
  rewrite (joinFSTab_one_newline_per_table ["a b" ++ NL ++ NL; "c d"]);
    [ reflexivity | discriminate ].
Defined.

(** X11: the newlines at the end of a table do not matter: adding a newline
    to the end of every table leaves the result unchanged. *)
Theorem joinFSTab_ignores_trailing_newlines xs :
  joinFSTab (map (fun t => t ++ NL) xs) = joinFSTab xs.
Proof.
  destruct xs as [| x xs]; [ reflexivity | ].
  rewrite !joinFSTab_one_newline_per_table by discriminate.
  rewrite map_map. f_equal. apply map_ext. intros t.
  unfold NL at 1. now rewrite TrimRight_append_cut.
Qed.

(** X12: joining the output of [joinFSTab] again changes nothing when the
    last table holds a byte other than newline. *)
Theorem joinFSTab_idempotent_unless_last_blank xs :
  TrimRight (last xs "") LF <> "" ->
  joinFSTab [joinFSTab xs] = joinFSTab xs.
Proof.
  intros H. destruct xs as [| x xs]; [ now cbn in H | ].
  assert (Hne : x :: xs <> []) by discriminate.
  destruct (exists_last Hne) as (ys & y & E). rewrite E in *.
  rewrite last_last in H. now apply joinFSTab_rejoin.
Qed.

(** The theorem at two tables. *)
Lemma joinFSTab_idempotent_unless_last_blank_witness :
  joinFSTab [joinFSTab ["a" ++ NL ++ NL; "b"]]
  = joinFSTab ["a" ++ NL ++ NL; "b"].
Proof.
  apply joinFSTab_idempotent_unless_last_blank. discriminate.
Defined.

Lemma TrimRight_line_end q : TrimRight (q ++ "0" ++ NL) LF = q ++ "0".
Proof.
  change (q ++ "0" ++ NL) with (q ++ "0" ++ String LF "").
  rewrite <- append_assoc, TrimRight_append_cut.
  now rewrite TrimRight_append_kept.
Qed.

(** X13: joining fragments that [parseBinds] compiled from non-empty specs is
    concatenating them: no line is changed and no blank line comes in. *)
Theorem joinFSTab_of_parseBinds tmp specs :
  specs <> [] ->
  Forall (fun s => s <> "" /\ snd (parseBinds s tmp) = None) specs ->
  joinFSTab (map (fun s => fst (parseBinds s tmp)) specs)
  = fold_right append "" (map (fun s => fst (parseBinds s tmp)) specs).
Proof.
  intros Hne Hall.
  rewrite joinFSTab_one_newline_per_table
    by (destruct specs; [ contradiction | discriminate ]).
  rewrite map_map. f_equal. apply map_ext_in. intros s Hin.
  rewrite Forall_forall in Hall. destruct (Hall s Hin) as [Hs Hok].
  destruct (parseBinds s tmp) as [frag e] eqn:E. cbn [fst snd] in *. subst e.
  destruct (parseBinds_fragment_end s tmp frag Hs E) as [q ->].
  rewrite TrimRight_line_end. now rewrite append_assoc.
Qed.

(** The theorem at the specs ["/a=/b"] and ["/c:/d"]. *)
Lemma joinFSTab_of_parseBinds_witness :
  joinFSTab (map (fun s => fst (parseBinds s "/tmp")) ["/a=/b"; "/c:/d"])
  = "/tmp/cpu/b /a none defaults,bind 0 0" ++ NL
    ++ "/tmp/cpu/c /c none defaults,bind 0 0" ++ NL
    ++ "/tmp/cpu/d /d none defaults,bind 0 0" ++ NL.
Proof.
  rewrite (joinFSTab_of_parseBinds "/tmp" ["/a=/b"; "/c:/d"]).
  - reflexivity.
  - discriminate.
  - repeat constructor; discriminate.
Defined.

End JoinRuns.

(** * [SetEnv] *)

Section EnvFacts.

Import GoStrings GoStringsMore Client ClientMore.

Local Open Scope Z_scope.

(** The name and value [SetEnv] passes for a variable: the text before the
    first [=], which holds no [=], and the text after it; a variable without
    [=] is passed whole as the name, with an empty value. *)
Lemma env_fields_pair v :
  exists name value,
    env_fields v = [name; value]
    /\ Count name Equal = 0
    /\ (Count v Equal = 0 -> name = v /\ value = "")
    /\ (0 < Count v Equal -> v = name ++ "=" ++ value).
Proof.
  unfold env_fields. pose proof (Count_nonneg v Equal) as Hc.
  destruct (Z.eq_dec (Count v Equal) 0) as [H0 | H0].
  - rewrite (SplitN_2_without_sep _ _ H0). cbn.
    exists v, "". repeat split; [ assumption | lia ].
  - assert (Hpos : 0 < Count v Equal) by lia.
    rewrite (SplitN_2_first _ _ Hpos). cbn.
    destruct (IndexByte_first _ _ (IndexByte_present _ _ Hpos)) as [Hv Hl].
    eexists _, _. repeat split; [ exact Hl | lia | lia | ].
    intros _. exact Hv.
Qed.

(** X14: [SetEnv] never indexes [env] out of range, whatever the
    environment holds (empty strings and strings without [=] included) and
    whatever the session answers. *)
Theorem SetEnv_never_panics (Session SessionError : Type)
  (Setenv : Session -> string -> string -> Session + SessionError)
  (s : Session) (environ envs : list string) :
  SetEnv Session SessionError Setenv s environ envs <> Panic.
Proof.
  unfold SetEnv. generalize (environ ++ envs)%list as vs. intros vs.
  revert s. induction vs as [| v vs IH]; intros s; cbn [SetEnv_loop].
  - discriminate.
  - destruct (env_fields_pair v) as (name & value & -> & _). cbn [nth_error].
    destruct (Setenv s name value); [ apply IH | discriminate ].
Qed.

(** What a session that accepts everything has recorded after the loop. *)
Lemma SetEnv_loop_recorded vs : forall s,
  exists pairs,
    SetEnv_loop _ _ recording_Setenv s vs = Done ((s ++ pairs)%list, None)
    /\ Forall2
         (fun v p =>
            Count (fst p) Equal = 0
            /\ (Count v Equal = 0 -> p = (v, ""))
            /\ (0 < Count v Equal -> v = fst p ++ "=" ++ snd p))
         vs pairs.
Proof.
  induction vs as [| v vs IH]; intros s; cbn [SetEnv_loop].
  - exists []. rewrite app_nil_r. split; [ reflexivity | constructor ].
  - destruct (env_fields_pair v) as (name & value & -> & H1 & H2 & H3).
    cbn [nth_error]. unfold recording_Setenv at 1.
    destruct (IH (s ++ [(name, value)])%list) as (pairs & -> & HF).
    exists ((name, value) :: pairs). rewrite <- app_assoc. split.
    + reflexivity.
    + constructor; [ | exact HF ]. cbn [fst snd]. repeat split.
      * exact H1.
      * intros H0. destruct (H2 H0) as [-> ->]. reflexivity.
      * exact H3.
Qed.

(** X15: when the session accepts every variable, [SetEnv] returns no error
    and has set one variable per string, in order, those of the process
    environment before those passed as arguments.  Each is split at its
    first [=] only: the name holds no [=], and name, [=] and value put
    together give the string back; a string without [=] is set whole as the
    name, with the empty value. *)
Theorem SetEnv_sets_each_variable_in_order s environ envs :
  exists pairs,
    SetEnv _ _ recording_Setenv s environ envs
    = Done ((s ++ pairs)%list, None)
    /\ Forall2
         (fun v p =>
            Count (fst p) Equal = 0
            /\ (Count v Equal = 0 -> p = (v, ""))
            /\ (0 < Count v Equal -> v = fst p ++ "=" ++ snd p))
         (environ ++ envs)%list pairs.
Proof. apply SetEnv_loop_recorded. Qed.

End EnvFacts.

(** * [GetPort] and [GetKeyFile] *)

Section ConfigFacts.

Import GoStrings GoStringsMore GoFilepath Client ClientMore.

Variable config_Get : string -> string -> string.

(** X16: [GetPort] never returns an error, an empty port or port 22, whatever
    the arguments and the ssh configuration.  A given port 22 becomes the
    default port 17010; with no port given, the configured port is taken,
    and an empty or 22 configured port becomes 17010.  A given port, or with
    none given a configured port, other than these is returned as it is,
    without any check that it is a number. *)
Theorem GetPort_never_22 host port :
  snd (GetPort config_Get host port) = None
  /\ fst (GetPort config_Get host port) <> ""
  /\ fst (GetPort config_Get host port) <> "22"
  /\ (port <> "" -> port <> "22" ->
      fst (GetPort config_Get host port) = port)
  /\ (port = "22" -> fst (GetPort config_Get host port) = "17010")
  /\ (port = "" ->
      config_Get host "Port" = "" \/ config_Get host "Port" = "22" ->
      fst (GetPort config_Get host port) = "17010")
  /\ (port = "" ->
      config_Get host "Port" <> "" -> config_Get host "Port" <> "22" ->
      fst (GetPort config_Get host port) = config_Get host "Port").
Proof.
  unfold GetPort. cbn [fst snd].
  assert (Hsel : forall p,
    (if (len p =? 0)%Z || (p =? "22")%string then DefaultPort else p) <> ""
    /\ (if (len p =? 0)%Z || (p =? "22")%string then DefaultPort else p)
       <> "22").
  { intros p. destruct (len p =? 0)%Z eqn:E0; cbn [orb];
      [ split; discriminate | ].
    destruct (String.eqb_spec p "22") as [-> | Hne]; [ split; discriminate | ].
    split; [ | assumption ].
    intros ->. discriminate E0. }
  assert (Hkeep : forall p, p <> "" -> p <> "22" ->
    (if (len p =? 0)%Z || (p =? "22")%string then DefaultPort else p) = p).
  { intros p H0 H22. rewrite (len_nonzero _ H0). cbn [orb].
    destruct (String.eqb_spec p "22"); [ congruence | reflexivity ]. }
  split; [ reflexivity | ].
  split; [ apply Hsel | ]. split; [ apply Hsel | ].
  split; [ | split; [ | split ] ].
  - intros H0 H22. rewrite (len_nonzero _ H0). cbn beta iota.
    now apply Hkeep.
  - intros ->. reflexivity.
  - intros -> [H | H]; cbn [len String.length Z.of_nat Z.eqb];
      rewrite H; reflexivity.
  - intros -> H0 H22. cbn [len String.length Z.of_nat Z.eqb].
    rewrite (len_nonzero _ H0). cbn [negb]. now apply Hkeep.
Qed.

End ConfigFacts.

(** The theorem at a given port ["2222"] and ["22"], and with no port given
    at a configured port ["22"] and ["2222"]. *)
Lemma GetPort_never_22_witness :
  fst (ClientMore.GetPort (fun _ _ => "22") "host" "2222") = "2222"
  /\ fst (ClientMore.GetPort (fun _ _ => "2222") "host" "22") = "17010"
  /\ fst (ClientMore.GetPort (fun _ _ => "22") "host" "") = "17010"
  /\ fst (ClientMore.GetPort (fun _ _ => "2222") "host" "") = "2222".
Proof.
  destruct (GetPort_never_22 (fun _ _ => "22") "host" "2222")
    as (_ & _ & _ & H1 & _).
  destruct (GetPort_never_22 (fun _ _ => "2222") "host" "22")
    as (_ & _ & _ & _ & H2 & _).
  destruct (GetPort_never_22 (fun _ _ => "22") "host" "")
    as (_ & _ & _ & _ & _ & H3 & _).
  destruct (GetPort_never_22 (fun _ _ => "2222") "host" "")
    as (_ & _ & _ & _ & _ & _ & H4).
  split; [ apply H1; discriminate | ].
  split; [ apply H2; reflexivity | ].
  split; [ apply H3; [ reflexivity | now right ] | ].
  apply H4; [ reflexivity | discriminate | discriminate ].
Defined.

(** * [Clean] keeps a path rooted and never returns the empty string *)

Section CleanFacts.

Import GoStrings GoFilepath.

Lemma Clean_nonempty path : Clean path <> "".
Proof.
  unfold Clean. destruct path as [| c p]; [ discriminate | ].
  match goal with
  | |- (if (String.length ?o =? 0)%nat then _ else _) <> _ =>
      destruct o eqn:E; cbn [String.length Nat.eqb]; discriminate
  end.
Qed.

(** [Join] of elements that are not all empty is not empty. *)
Lemma Join_nonempty e rest : e <> "" -> Join (e :: rest) <> "".
Proof.
  intros He. cbn [Join]. destruct e as [| c e]; [ contradiction | ].
  cbn [String.length Nat.eqb]. apply Clean_nonempty.
Qed.

Lemma backtrack_ge out dotdot w :
  (dotdot <= w)%nat -> (dotdot <= backtrack out dotdot w)%nat.
Proof.
  induction w as [| w IH]; intros H; cbn [backtrack]; [ lia | ].
  destruct (dotdot <? S w)%nat eqn:E; cbn [andb]; [ | lia ].
  apply Nat.ltb_lt in E.
  destruct (negb _); [ apply IH; lia | lia ].
Qed.

(** For a rooted path the buffer keeps its leading separator. *)
Lemma Clean_loop_rooted fuel : forall p o,
  exists o', Clean_loop fuel true p (String Slash o) 1 = String Slash o'.
Proof.
  induction fuel as [| fuel IH]; intros p o; cbn [Clean_loop]; [ eauto | ].
  destruct p as [| c p1]; [ eauto | ].
  destruct (IsPathSeparator c); [ apply IH | ].
  destruct ((c =? Dot)%char && ends_element p1); [ apply IH | ].
  match goal with |- context [if ?b then _ else _] => destruct b end.
  - cbn [String.length negb].
    destruct (1 <? S (String.length o))%nat eqn:E; [ | apply IH ].
    apply Nat.ltb_lt in E.
    pose proof (backtrack_ge (String Slash o) 1 (S (String.length o) - 1)
                  ltac:(lia)) as Hw.
    destruct (backtrack (String Slash o) 1 (S (String.length o) - 1))
      as [| w]; [ lia | ].
    cbn [take]. apply IH.
  - cbn [andb negb orb].
    destruct (element (String c p1)) as [e rest].
    destruct (negb (String.length (String Slash o) =? 1)%nat);
      cbn [append]; apply IH.
Qed.

(** [Clean] of a rooted path is a rooted path. *)
Lemma Clean_rooted p : exists q, Clean (String Slash p) = String Slash q.
Proof.
  unfold Clean. change (IsPathSeparator Slash) with true. cbn iota.
  destruct (Clean_loop_rooted (S (String.length (String Slash p)))
              (drop 1 (String Slash p)) "") as [o' ->].
  cbn [String.length Nat.eqb]. eauto.
Qed.

End CleanFacts.

(** * [GetKeyFile] *)

Section KeyFileFacts.

Import GoStrings GoStringsMore GoFilepath Client ClientMore.

Variable config_Get : string -> string -> string.
Variable HOME : string.
Variable DefaultKeyFile : string.

Local Abbreviation GetKeyFile := (ClientMore.GetKeyFile config_Get HOME DefaultKeyFile).

(** X17: when [HOME] and [DefaultKeyFile] are set, [GetKeyFile] returns a
    key file name that is not empty, whatever it is given and whatever the
    ssh configuration holds. *)
Theorem GetKeyFile_nonempty host kf :
  HOME <> "" -> DefaultKeyFile <> "" -> GetKeyFile host kf <> "".
Proof.
  intros HH HD. unfold ClientMore.GetKeyFile.
  match goal with
  | |- (if HasPrefix ?k _ then _ else _) <> _ =>
      assert (Hk : k <> ""); [ | destruct (HasPrefix k "~") ]
  end.
  - destruct (len kf =? 0)%Z eqn:E.
    + destruct (len (config_Get host "IdentityFile") =? 0)%Z eqn:E';
        [ assumption | ].
      intros H. apply len_zero in H. congruence.
    + intros H. apply len_zero in H. congruence.
  - now apply Join_nonempty.
  - assumption.
Qed.

(** X18: when [HOME] is an absolute path, a key file name that starts with
    [~], given or configured, comes back as an absolute path: the [~] is
    replaced by [HOME] and the path is cleaned.  Every leading [~] is
    replaced, also one that is not followed by a separator. *)
Theorem GetKeyFile_expands_tilde host kf home :
  HOME = String Slash home -> kf <> "" -> HasPrefix kf "~" = true ->
  GetKeyFile host kf = Clean (HOME ++ "/" ++ slice_from kf 1)
  /\ exists p, GetKeyFile host kf = String Slash p.
Proof.
  intros HH Hkf Hp. unfold ClientMore.GetKeyFile.
  rewrite (len_nonzero _ Hkf), Hp, HH.
  cbn [Join String.length Nat.eqb GoStrings.Join append].
  split; [ reflexivity | apply Clean_rooted ].
Qed.

(** A key file name that is given and does not start with [~] is returned
    as it is: the ssh configuration and the default are not consulted and
    the path is not cleaned. *)
Lemma GetKeyFile_given_name_kept host kf :
  kf <> "" -> HasPrefix kf "~" = false -> GetKeyFile host kf = kf.
Proof.
  intros Hkf Hp. unfold ClientMore.GetKeyFile.
  now rewrite (len_nonzero _ Hkf), Hp.
Qed.

End KeyFileFacts.

(** The value [DefaultKeyFile] starts with is never empty. *)
Lemma DefaultKeyFile_init_nonempty HOME :
  ClientMore.DefaultKeyFile_init HOME <> "".
Proof.
  unfold ClientMore.DefaultKeyFile_init. cbn [GoFilepath.Join].
  destruct (String.length HOME =? 0)%nat; apply Clean_nonempty.
Qed.

(** X17 with no key file given or configured and the default of a user whose
    home is ["/root"]. *)
Lemma GetKeyFile_nonempty_witness :
  ClientMore.GetKeyFile (fun _ _ => "") "/root"
    (ClientMore.DefaultKeyFile_init "/root") "host" "" <> "".
Proof.
  apply GetKeyFile_nonempty; [ discriminate | ].
  apply DefaultKeyFile_init_nonempty.
Defined.

(** X18 at ["~/.ssh/id"] and at ["~other/key"]. *)
Lemma GetKeyFile_expands_tilde_witness :
  ClientMore.GetKeyFile (fun _ _ => "") "/root" "" "host" "~/.ssh/id"
  = "/root/.ssh/id"
  /\ ClientMore.GetKeyFile (fun _ _ => "") "/root" "" "host" "~other/key"
     = "/root/other/key".
Proof.
  split.
  - rewrite (proj1 (GetKeyFile_expands_tilde (fun _ _ => "") "/root" ""
                      "host" "~/.ssh/id" "root" eq_refl
                      ltac:(discriminate) eq_refl)).
    reflexivity.
  - rewrite (proj1 (GetKeyFile_expands_tilde (fun _ _ => "") "/root" ""
                      "host" "~other/key" "root" eq_refl
                      ltac:(discriminate) eq_refl)).
    reflexivity.
Defined.

(** The lemma at a relative path with a doubled separator. *)
Lemma GetKeyFile_given_name_kept_witness :
  ClientMore.GetKeyFile (fun _ _ => "other") "/root" "" "host" "keys//id"
  = "keys//id".
Proof.
  apply GetKeyFile_given_name_kept; [ discriminate | reflexivity ].
Defined.

(** * [generateNonce] *)

Section NonceFacts.

Import GoStrings Client ClientMore.

(** Is the byte one of [0-9a-f]? *)
Local Abbreviation hex_digits := (list_ascii_of_string "0123456789abcdef").

Lemma hexdigit_in_hex_digits (c : ascii) :
  In (hexdigit (N_of_ascii c / 16)) hex_digits
  /\ In (hexdigit (N_of_ascii c mod 16)) hex_digits.
Proof.
  destruct c as [[] [] [] [] [] [] [] []]; vm_compute; intuition.
Qed.

(** The two digits written for a byte give the byte back. *)
Lemma unhex_hexdigit (c : ascii) :
  ascii_of_N (16 * hexvalue (hexdigit (N_of_ascii c / 16))
              + hexvalue (hexdigit (N_of_ascii c mod 16))) = c.
Proof. destruct c as [[] [] [] [] [] [] [] []]; reflexivity. Qed.

Lemma Sprintf_02x_length b :
  String.length (Sprintf_02x b) = 2 * List.length b.
Proof.
  induction b as [| c b IH]; cbn [Sprintf_02x String.length List.length];
    [ reflexivity | lia ].
Qed.

(** Copying a string into an array of its length copies all of it. *)
Lemma copy_into_zeroed_exact s :
  copy_into_zeroed (String.length s) s = list_ascii_of_string s.
Proof.
  induction s as [| c s IH]; cbn; [ reflexivity | now rewrite IH ].
Qed.

Lemma length_list_ascii_of_string s :
  List.length (list_ascii_of_string s) = String.length s.
Proof. induction s as [| c s IH]; cbn; [ reflexivity | now rewrite IH ]. Qed.

Lemma Sprintf_02x_hex b :
  Forall (fun c => In c hex_digits) (list_ascii_of_string (Sprintf_02x b)).
Proof.
  induction b as [| c b IH]; cbn [Sprintf_02x list_ascii_of_string].
  - constructor.
  - destruct (hexdigit_in_hex_digits c) as [H1 H2].
    constructor; [ exact H1 | constructor; [ exact H2 | exact IH ] ].
Qed.

Lemma unhex_Sprintf_02x b :
  unhex (list_ascii_of_string (Sprintf_02x b)) = b.
Proof.
  induction b as [| c b IH]; cbn [Sprintf_02x list_ascii_of_string unhex].
  - reflexivity.
  - now rewrite IH, unhex_hexdigit.
Qed.

Lemma nonce_of_16_bytes b :
  List.length b = 16 ->
  copy_into_zeroed 32 (Sprintf_02x b) = list_ascii_of_string (Sprintf_02x b).
Proof.
  intros H. rewrite <- copy_into_zeroed_exact. f_equal.
  rewrite Sprintf_02x_length, H. reflexivity.
Qed.

(** X20: when the random reader fills the 16-byte array, [generateNonce]
    returns no error and a nonce whose 32 bytes are all digits of
    [0123456789abcdef], so that its [String] is 32 printable characters. *)
Theorem generateNonce_printable (E : Type) b :
  List.length b = 16 ->
  snd (generateNonce (E := E) (inl b)) = None
  /\ List.length (fst (generateNonce (E := E) (inl b))) = 32
  /\ Forall (fun c => In c hex_digits) (fst (generateNonce (E := E) (inl b)))
  /\ String.length (nonce_String (fst (generateNonce (E := E) (inl b)))) = 32.
Proof.
  intros H. cbn [generateNonce fst snd]. rewrite (nonce_of_16_bytes b H).
  unfold nonce_String. rewrite string_of_list_ascii_of_string.
  rewrite length_list_ascii_of_string, Sprintf_02x_length, H.
  repeat split; try reflexivity.
  apply Sprintf_02x_hex.
Qed.

(** X21: the nonce holds every bit the random reader delivered: reading its
    32 digits back two by two gives the 16 random bytes, so that different
    random bytes give different nonces. *)
Theorem generateNonce_keeps_random_bytes (E : Type) b :
  List.length b = 16 ->
  unhex (fst (generateNonce (E := E) (inl b))) = b.
Proof.
  intros H. cbn [generateNonce fst]. rewrite (nonce_of_16_bytes b H).
  apply unhex_Sprintf_02x.
Qed.

End NonceFacts.

(** X20 at the bytes 0, 1, ..., 15. *)
Lemma generateNonce_printable_witness :
  String.length
    (ClientMore.nonce_String
       (fst (ClientMore.generateNonce (E := unit)
               (inl (map ascii_of_nat (seq 0 16)))))) = 32
  /\ ClientMore.nonce_String
       (fst (ClientMore.generateNonce (E := unit)
               (inl (map ascii_of_nat (seq 0 16)))))
     = "000102030405060708090a0b0c0d0e0f".
Proof.
  split; [ | reflexivity ].
  apply (generateNonce_printable unit (map ascii_of_nat (seq 0 16)) eq_refl).
Defined.

(** X21 at the bytes 0, 1, ..., 15. *)
Lemma generateNonce_keeps_random_bytes_witness :
  ClientMore.unhex
    (fst (ClientMore.generateNonce (E := unit)
            (inl (map ascii_of_nat (seq 0 16)))))
  = map ascii_of_nat (seq 0 16).
Proof.
  apply (generateNonce_keeps_random_bytes unit (map ascii_of_nat (seq 0 16))).
  reflexivity.
Defined.

(** * [ParseUint] and [vsockIdPort] *)

Section VsockFacts.

Import GoStrings GoStrconv Decimal Client ClientMore.

Local Open Scope Z_scope.

(** The value the loop of [ParseUint] ends with is at most [maxVal]. *)
Lemma ParseUint_loop_bound base0 base cutoff maxVal s :
  forall n underscores n' underscores',
    ParseUint_loop base0 base cutoff maxVal s n underscores
    = inl (n', underscores') ->
    0 <= n <= maxVal -> 0 <= n' <= maxVal.
Proof.
  induction s as [| c s IH]; intros n u n' u'; cbn [ParseUint_loop].
  - now intros [= <- _].
  - destruct ((byteZ c =? 95) && base0); [ apply IH | ].
    match goal with
    | |- match ?dg with _ => _ end = _ -> _ => destruct dg as [d |]
    end; [ | discriminate ].
    destruct (d >=? base); [ discriminate | ].
    destruct (n >=? cutoff); [ discriminate | ].
    match goal with
    | |- (if (?n1 <? ?n0) || (?n1 >? maxVal) then _ else _) = _ -> _ =>
        destruct (n1 <? n0); [ discriminate | ];
        destruct (n1 >? maxVal) eqn:E; [ discriminate | ];
        intros H _; apply (IH _ _ _ _ H);
        assert (0 <= n1) by (apply Z.mod_pos_bound; reflexivity);
        pose proof (Zgt_cases n1 maxVal) as Hgt; rewrite E in Hgt; lia
    end.
Qed.

(** A value [ParseUint] returns without error fits the bit size asked for. *)
Lemma ParseUint_fits s base bitSize v :
  0 < bitSize <= 64 ->
  ParseUint s base bitSize = (v, None) -> 0 <= v < 2 ^ bitSize.
Proof.
  intros Hb. unfold ParseUint.
  destruct (len s =? 0); [ discriminate | ].
  match goal with
  | |- match ?p with _ => _ end = _ -> _ => destruct p as [[base' s'] |]
  end; [ | discriminate ].
  destruct ((bitSize <? 0) || (bitSize >? 64)); [ discriminate | ].
  destruct (bitSize =? 0) eqn:E0; [ apply Z.eqb_eq in E0; lia | ].
  destruct (ParseUint_loop _ _ _ _ _ _ _) as [[n u] | [v' e]] eqn:E;
    [ | discriminate ].
  destruct (u && negb (underscoreOK s)); [ discriminate | ].
  intros [= <-].
  assert (0 < 2 ^ bitSize) by (apply Z.pow_pos_nonneg; lia).
  pose proof (ParseUint_loop_bound _ _ _ _ _ _ _ _ _ E) as Hn. lia.
Qed.

(** X22: the numbers [vsockIdPort] returns without error are the numbers
    [ParseUint] read from host and port: both are below [2^32], so the
    conversions to [uint32] lose nothing.  With an error, both are 0. *)
Theorem vsockIdPort_fits_uint32 host port id p e :
  vsockIdPort host port = (id, p, e) ->
  (e = None ->
   ParseUint host 0 32 = (id, None) /\ ParseUint port 0 32 = (p, None)
   /\ 0 <= id < 2 ^ 32 /\ 0 <= p < 2 ^ 32)
  /\ (e <> None -> id = 0 /\ p = 0).
Proof.
  unfold vsockIdPort.
  destruct (ParseUint host 0 32) as [h [eh |]] eqn:Eh.
  { intros [= <- <- <-]. split; [ discriminate | now split ]. }
  destruct (ParseUint port 0 32) as [q [eq |]] eqn:Ep.
  { intros [= <- <- <-]. split; [ discriminate | now split ]. }
  intros [= <- <- <-]. split; [ intros _ | congruence ].
  pose proof (ParseUint_fits host 0 32 h ltac:(lia) Eh) as Hh.
  pose proof (ParseUint_fits port 0 32 q ltac:(lia) Ep) as Hq.
  unfold uint32. rewrite !Z.mod_small by assumption. auto.
Qed.

(** The theorem at host ["3"] and port ["0x4242"]. *)
Lemma vsockIdPort_fits_uint32_witness :
  ParseUint "3" 0 32 = (3, None) /\ ParseUint "0x4242" 0 32 = (16962, None)
  /\ 0 <= 3 < 2 ^ 32 /\ 0 <= 16962 < 2 ^ 32.
Proof.
  apply (proj1 (vsockIdPort_fits_uint32 "3" "0x4242" 3 16962 None eq_refl)).
  reflexivity.
Defined.

Lemma is_digit_range c : is_digit c = true -> 48 <= byteZ c <= 57.
Proof. unfold is_digit. lia. Qed.

Lemma value_from_ge s : forall n,
  all_digits s = true -> 0 <= n -> n <= value_from n s.
Proof.
  induction s as [| c s IH]; intros n Hd Hn; cbn [value_from]; [ lia | ].
  cbn [all_digits] in Hd. apply andb_prop in Hd. destruct Hd as [Hc Hs].
  apply is_digit_range in Hc.
  specialize (IH (10 * n + (byteZ c - 48)) Hs). lia.
Qed.

(** On decimal digits the loop computes the number they write. *)
Lemma ParseUint_loop_digits s : forall n underscores,
  all_digits s = true -> 0 <= n -> value_from n s <= 2 ^ 32 - 1 ->
  ParseUint_loop true 10 (maxUint64 / 10 + 1) (2 ^ 32 - 1) s n underscores
  = inl (value_from n s, underscores).
Proof.
  change (maxUint64 / 10 + 1) with 1844674407370955162.
  change (2 ^ 32 - 1) with 4294967295.
  induction s as [| c s IH]; intros n u Hd Hn Hv;
    cbn [ParseUint_loop value_from]; [ reflexivity | ].
  cbn [all_digits] in Hd. apply andb_prop in Hd. destruct Hd as [Hc Hs].
  pose proof (is_digit_range _ Hc) as Hr. cbn [value_from] in Hv.
  pose proof (value_from_ge s (10 * n + (byteZ c - 48)) Hs ltac:(lia)) as Hge.
  replace (byteZ c =? 95) with false by (symmetry; apply Z.eqb_neq; lia).
  cbn [andb].
  replace ((48 <=? byteZ c) && (byteZ c <=? 57)) with true
    by (symmetry; apply andb_true_intro; split; apply Z.leb_le; lia).
  replace (byteZ c - 48 >=? 10) with false
    by (symmetry; rewrite Z.geb_leb; apply Z.leb_gt; lia).
  replace (n >=? 1844674407370955162) with false
    by (symmetry; rewrite Z.geb_leb; apply Z.leb_gt; lia).
  change (2 ^ 64) with 18446744073709551616.
  rewrite (Z.mod_small (n * 10)) by lia.
  rewrite (Z.mod_small (n * 10 + (byteZ c - 48))) by lia.
  replace (n * 10 + (byteZ c - 48) <? n * 10) with false
    by (symmetry; apply Z.ltb_ge; lia).
  replace (n * 10 + (byteZ c - 48) >? 4294967295) with false
    by (symmetry; rewrite Z.gtb_ltb; apply Z.ltb_ge; lia).
  cbn [orb]. replace (n * 10) with (10 * n) by lia.
  apply IH; [ assumption | lia | assumption ].
Qed.

(** A number below [2^32] written in decimal digits without a leading zero is
    read as that number. *)
Lemma ParseUint_decimal s :
  s <> "" -> all_digits s = true -> leading_zero s = false ->
  value s < 2 ^ 32 ->
  ParseUint s 0 32 = (value s, None).
Proof.
  intros Hs Hd Hz Hv. unfold ParseUint. rewrite (len_nonzero _ Hs).
  destruct s as [| c s]; [ contradiction | ].
  cbn [leading_zero] in Hz.
  change (at_ (String c s) 0) with (byteZ c). rewrite Hz.
  cbn [Z.eqb Z.leb Z.ltb Z.gtb Z.compare andb orb].
  change (2 ^ 32 - 1) with 4294967295 in *.
  rewrite ParseUint_loop_digits; [ reflexivity | assumption | lia | ].
  unfold value in Hv. change (2 ^ 32 - 1) with 4294967295.
  change (2 ^ 32) with 4294967296 in Hv. lia.
Qed.

(** X23: a host (client id) and a port that are numbers below [2^32] written
    in decimal digits, without a leading zero, are returned as these
    numbers, without error. *)
Theorem vsockIdPort_decimal host port :
  host <> "" -> all_digits host = true -> leading_zero host = false ->
  value host < 2 ^ 32 ->
  port <> "" -> all_digits port = true -> leading_zero port = false ->
  value port < 2 ^ 32 ->
  vsockIdPort host port = (value host, value port, None).
Proof.
  intros H1 H2 H3 H4 P1 P2 P3 P4. unfold vsockIdPort.
  rewrite (ParseUint_decimal host), (ParseUint_decimal port) by assumption.
  unfold uint32.
  assert (0 <= value host) by (apply value_from_ge; [ assumption | lia ]).
  assert (0 <= value port) by (apply value_from_ge; [ assumption | lia ]).
  now rewrite !Z.mod_small by lia.
Qed.

(** The theorem at client id 3 and the default port. *)
Lemma vsockIdPort_decimal_witness :
  vsockIdPort "3" DefaultPort = (3, 17010, None).
Proof.
  apply (vsockIdPort_decimal "3" DefaultPort);
    try discriminate; reflexivity.
Defined.

End VsockFacts.

(** * [UserKeyConfig] and [GetKeyFile] on the same names *)

Section UserKeyFacts.

Import GoStrings GoStringsMore GoFilepath Client ClientMore.

Variable config_Get : string -> string -> string.
Variable HOME : string.
Variable DefaultKeyFile : string.

Local Abbreviation chosen := (chosen_key_file config_Get DefaultKeyFile).

Lemma HasPrefix_tilde_slash kf :
  HasPrefix kf "~/" = true -> HasPrefix kf "~" = true.
Proof.
  destruct kf as [| a kf]; cbn [HasPrefix]; [ discriminate | ].
  intros H. apply andb_prop in H. destruct H as [-> _].
  now destruct kf.
Qed.

(** X19: [UserKeyConfig] reads the file [GetKeyFile] names when the name
    chosen (given, configured or default) starts with [~/] or does not start
    with [~].  For a name that starts with [~] not followed by a separator
    they differ: [UserKeyConfig] reads the name as it is, [GetKeyFile]
    replaces the [~] by [HOME]. *)
Theorem UserKeyConfig_file_and_GetKeyFile host kf :
  (HasPrefix (chosen host kf) "~/" = true
   \/ HasPrefix (chosen host kf) "~" = false ->
   UserKeyConfig_file config_Get HOME DefaultKeyFile kf host
   = GetKeyFile config_Get HOME DefaultKeyFile host kf)
  /\ (HasPrefix (chosen host kf) "~/" = false ->
      HasPrefix (chosen host kf) "~" = true ->
      UserKeyConfig_file config_Get HOME DefaultKeyFile kf host
      = chosen host kf
      /\ GetKeyFile config_Get HOME DefaultKeyFile host kf
         = Join [HOME; slice_from (chosen host kf) 1]).
Proof.
  unfold UserKeyConfig_file, GetKeyFile.
  change (if (len kf =? 0)%Z then _ else kf) with (chosen host kf). split.
  - intros [H | H].
    + now rewrite H, (HasPrefix_tilde_slash _ H).
    + rewrite H.
      destruct (HasPrefix (chosen host kf) "~/") eqn:E; [ | reflexivity ].
      apply HasPrefix_tilde_slash in E. congruence.
  - intros H1 H2. now rewrite H1, H2.
Qed.

(** [UserKeyConfig] adds one auth method, after those already there, when
    the key file is read and parsed, and leaves the list as it was when it
    returns an error; the error quotes the name of the file it tried. *)
Lemma UserKeyConfig_auth (FileError KeyError Signer AuthMethod : Type)
  (ReadFile : string -> string + FileError)
  (ParsePrivateKey : string -> Signer + KeyError)
  (PublicKeys : Signer -> AuthMethod) kf host Auth :
  let file := UserKeyConfig_file config_Get HOME DefaultKeyFile kf host in
  let result :=
    UserKeyConfig config_Get HOME DefaultKeyFile _ _ _ _
      ReadFile ParsePrivateKey PublicKeys kf host Auth in
  (snd result = None ->
   exists key signer,
     ReadFile file = inl key /\ ParsePrivateKey key = inl signer
     /\ fst result = (Auth ++ [PublicKeys signer])%list)
  /\ (forall e, snd result = Some e ->
      fst result = Auth
      /\ ((exists err, e = ErrReadKey _ _ file err)
          \/ (exists err, e = ErrParseKey _ _ file err))).
Proof.
  cbn zeta. unfold UserKeyConfig.
  destruct (ReadFile _) as [key | err] eqn:ER; cbn [fst snd].
  - destruct (ParsePrivateKey key) as [signer | err] eqn:EP; cbn [fst snd].
    + split; [ intros _; now exists key, signer | discriminate ].
    + split; [ discriminate | ].
      intros e [= <-]. split; [ reflexivity | right; now exists err ].
  - split; [ discriminate | ].
    intros e [= <-]. split; [ reflexivity | left; now exists err ].
Qed.

End UserKeyFacts.

(** X19 at the names ["~/.ssh/id"] and ["~id"], with home ["/root"]. *)
Lemma UserKeyConfig_file_and_GetKeyFile_witness :
  ClientMore.UserKeyConfig_file (fun _ _ => "") "/root" "" "~/.ssh/id" "host"
  = ClientMore.GetKeyFile (fun _ _ => "") "/root" "" "host" "~/.ssh/id"
  /\ ClientMore.UserKeyConfig_file (fun _ _ => "") "/root" "" "~id" "host"
     = "~id"
  /\ ClientMore.GetKeyFile (fun _ _ => "") "/root" "" "host" "~id"
     = "/root/id".
Proof.
  destruct (UserKeyConfig_file_and_GetKeyFile (fun _ _ => "") "/root" ""
              "host" "~/.ssh/id") as [H1 _].
  destruct (UserKeyConfig_file_and_GetKeyFile (fun _ _ => "") "/root" ""
              "host" "~id") as [_ H2].
  split; [ apply H1; now left | ].
  destruct (H2 eq_refl eq_refl) as [H3 H4].
  split; [ exact H3 | rewrite H4; reflexivity ].
Defined.

(** * The relay on a sink that refuses writes *)

Section RelaySink.

Import Relay.

Variable W : Type.
Variable Write : W -> list ascii -> option W.

(** X24: when the writer returns an error for every write, the relay returns
    at the first byte it reads: nothing is written and the session is not
    closed, whatever the input is. *)
Theorem SSHStdin_returns_on_write_error w r :
  (forall p, Write w p = None) -> SSHStdin W Write w r = (w, false).
Proof.
  intros HW. unfold SSHStdin. destruct r as [| b r]; [ reflexivity | ].
  cbn [Relay.loop]. unfold Relay.body. rewrite !HW.
  destruct (_ || _); [ reflexivity | ].
  destruct (b =? Tilde)%char; [ reflexivity | ].
  destruct (b =? Dot)%char; reflexivity.
Qed.

End RelaySink.

(** X24 on the sink that is gone. *)
Lemma SSHStdin_returns_on_write_error_witness :
  Relay.SSHStdin unit Relay.broken tt [LF; Tilde; Dot] = (tt, false).
Proof.
  apply SSHStdin_returns_on_write_error. reflexivity.
Defined.

(** * Specs put together with a colon *)

Section BindCompose.

Import GoStrings GoStringsMore Client ClientMore.

(** The elements of two strings joined by the separator are the elements of
    the first followed by those of the second. *)
Lemma Split_joined s1 s2 sep :
  Split (s1 ++ String sep s2) sep = (Split s1 sep ++ Split s2 sep)%list.
Proof.
  rewrite !Split_fields.
  destruct (fields_app s1 (String sep s2) sep)
    as (fs1 & f1 & f2 & fs2 & H1 & H2 & ->).
  cbn [fields] in H2. rewrite Ascii.eqb_refl in H2. injection H2 as <- <-.
  rewrite H1, append_empty_r, <- app_assoc. reflexivity.
Qed.

Lemma parseBinds_ok_iff s tmp :
  s <> "" ->
  (snd (parseBinds s tmp) = None <-> forallb accepted (Split s Colon) = true).
Proof.
  intros Hs.
  destruct (parseBinds_succeeds_iff_all_accepted s tmp Hs) as [H1 H2].
  destruct (forallb accepted (Split s Colon)).
  - rewrite (H1 eq_refl). now split.
  - split; [ intros H; now destruct (H2 eq_refl) | discriminate ].
Qed.

(** X25: compiling two non-empty specs joined by a colon succeeds exactly
    when compiling each of them does, and the fragment is then the fragment
    of the first followed by the fragment of the second. *)
Theorem parseBinds_of_joined_specs s1 s2 tmp :
  s1 <> "" -> s2 <> "" ->
  (snd (parseBinds (s1 ++ ":" ++ s2) tmp) = None
   <-> snd (parseBinds s1 tmp) = None /\ snd (parseBinds s2 tmp) = None)
  /\ (snd (parseBinds (s1 ++ ":" ++ s2) tmp) = None ->
      fst (parseBinds (s1 ++ ":" ++ s2) tmp)
      = fst (parseBinds s1 tmp) ++ fst (parseBinds s2 tmp)).
Proof.
  intros H1 H2.
  assert (H12 : s1 ++ ":" ++ s2 <> "").
  { apply append_nonempty_r. discriminate. }
  pose proof (parseBinds_ok_iff _ tmp H12) as E12.
  pose proof (parseBinds_ok_iff _ tmp H1) as E1.
  pose proof (parseBinds_ok_iff _ tmp H2) as E2.
  assert (ES : Split (s1 ++ ":" ++ s2) Colon
               = (Split s1 Colon ++ Split s2 Colon)%list)
    by apply (Split_joined s1 s2 Colon).
  rewrite ES, forallb_app, andb_true_iff in E12.
  split; [ now rewrite E12, E1, E2 | ].
  intros Hok. destruct (proj1 E12 Hok) as [A1 A2].
  rewrite (proj1 (parseBinds_succeeds_iff_all_accepted _ tmp H12)), ES
    by (rewrite ES, forallb_app, A1, A2; reflexivity).
  rewrite (proj1 (parseBinds_succeeds_iff_all_accepted _ tmp H1) A1).
  rewrite (proj1 (parseBinds_succeeds_iff_all_accepted _ tmp H2) A2).
  cbn [fst]. now rewrite map_app, fold_append_app.
Qed.

(** The theorem at ["/a=/b"] and ["/c"]. *)
Lemma parseBinds_of_joined_specs_witness :
  fst (parseBinds ("/a=/b" ++ ":" ++ "/c") "/tmp")
  = fst (parseBinds "/a=/b" "/tmp") ++ fst (parseBinds "/c" "/tmp").
Proof.
  apply (parseBinds_of_joined_specs "/a=/b" "/c" "/tmp");
    try discriminate; reflexivity.
Defined.

End BindCompose.
